(** * Hybrid movie recommender: the scoring workflow and its HTTP service

    A shallow embedding of the notebook
    [machine_learning/recommendation_system_example__movie_recommender.ipynb]:
    the fitted feature pipeline, the two fitted scorers, [hybrid_predict],
    the Flask views [home], [recommend] and [shutdown], and the serving loop
    [run_flask].

    Python floats are IEEE 754 binary64 values; they are modelled by Rocq's
    primitive floats, so [0.7 * cf_score + 0.3 * cb_score] is the very
    expression the notebook evaluates. *)

From Stdlib Require Import ZArith List String Bool Lia.
From Stdlib Require Import Permutation Sorted Relations.Relation_Operators.
From Stdlib Require Import Floats.
Import ListNotations.

Set Warnings "-inexact-float,-register-all".

Local Open Scope Z_scope.

(* ================================================================= *)
(** ** Binary64 values *)

(** NaN among the values [Prim2SF] gives a float. *)
Definition sf_is_nan (f : spec_float) : bool :=
  match f with S754_nan => true | _ => false end.

(* ================================================================= *)
(** ** Exceptions, globals and computations *)

(** The exceptions the modelled code can raise. *)
Inductive exn : Type :=
| KeyError (key : string)        (* [d[key]] on a dict without [key] *)
| IndexError                     (* [lst[0]] on an empty list *)
| SparkException (msg : string)  (* a failed Spark job *)
| PySparkValueError (error_class : string). (* a rejected argument *)

Inductive result (A : Type) : Type :=
| Ok (a : A)
| Raise (e : exn).
Arguments Ok {A} a.
Arguments Raise {A} e.

Definition Vector := list float.

(** [model = pipeline.fit(model_df)]: the fitted stages of
    [Pipeline(stages=[user_indexer, user_encoder, movie_indexer,
    movie_encoder, hashingTF, idf])]. A [StringIndexerModel] knows the labels
    seen while fitting; with the default [handleInvalid="error"] it has no
    index for any other label. *)
Record PipelineModel : Type := {
  user_indexer : Z -> option nat;
  user_encoder : nat -> Vector;
  movie_indexer : Z -> option nat;
  movie_encoder : nat -> Vector;
  hashingTF : list string -> Vector;
  idf : Vector -> Vector
}.

(** [collaborative_model = als.fit(features_df)]: the score of a
    (user_index, movie_index) pair, NaN when the model has no factors for
    the user or for the item. *)
Record ALSModel : Type := {
  als_predict : nat -> nat -> float
}.

(** [content_model = content_pipeline.fit(features_df)]: the fitted random
    forest behind the [VectorAssembler]. *)
Record ContentModel : Type := {
  rf_predict : Vector -> float
}.

(** The module-level names the functions below read or assign. *)
Record Globals : Type := {
  model : PipelineModel;
  collaborative_model : ALSModel;
  content_model : ContentModel;
  server_active : bool
}.

Definition set_server_active (b : bool) (g : Globals) : Globals :=
  {| model := model g;
     collaborative_model := collaborative_model g;
     content_model := content_model g;
     server_active := b |}.

(** What a computation does besides returning and assigning globals. *)
Inductive event : Type :=
| CallHybridPredict (userId movieId : Z) (genres_list : list string)
| StartThread (target : string).

(** A computation runs from the current globals; it returns or raises,
    leaves the globals as it assigned them, and emits events in order. *)
Record outcome (A : Type) : Type := {
  value : result A;
  globals_after : Globals;
  events : list event
}.
Arguments value {A} o.
Arguments globals_after {A} o.
Arguments events {A} o.

Definition M (A : Type) : Type := Globals -> outcome A.

Definition ret {A} (a : A) : M A :=
  fun g => {| value := Ok a; globals_after := g; events := [] |}.

Definition raise {A} (e : exn) : M A :=
  fun g => {| value := Raise e; globals_after := g; events := [] |}.

Definition bind {A B} (m : M A) (k : A -> M B) : M B :=
  fun g =>
    let o := m g in
    match value o with
    | Ok a =>
        let o' := k a (globals_after o) in
        {| value := value o';
           globals_after := globals_after o';
           events := events o ++ events o' |}
    | Raise e =>
        {| value := Raise e;
           globals_after := globals_after o;
           events := events o |}
    end.

Definition read_globals : M Globals :=
  fun g => {| value := Ok g; globals_after := g; events := [] |}.

Definition write_globals (g' : Globals) : M unit :=
  fun _ => {| value := Ok tt; globals_after := g'; events := [] |}.

Definition emit (e : event) : M unit :=
  fun g => {| value := Ok tt; globals_after := g; events := [e] |}.

Definition lift {A} (r : result A) : M A :=
  fun g => {| value := r; globals_after := g; events := [] |}.

Declare Scope monad_scope.
Delimit Scope monad_scope with monad.
Notation "x <- m ;; k" := (bind m (fun x => k))
  (at level 61, m at next level, right associativity) : monad_scope.
Notation "m ;;; k" := (bind m (fun _ => k))
  (at level 61, right associativity) : monad_scope.
Local Open Scope monad_scope.

(* ================================================================= *)
(** ** DataFrames *)

(** A DataFrame is a lazy plan: evaluating it ([collect]) yields its rows or
    fails with the exception of the first stage that rejects a row. A
    DataFrame that could not be built carries the exception of its
    construction, which the caller meets before anything else. *)
Definition DataFrame (R : Type) : Type := result (list R).

Definition collect {R} (df : DataFrame R) : result (list R) := df.

Definition select {R S} (cols : R -> S) (df : DataFrame R) : DataFrame S :=
  match df with
  | Ok rows => Ok (map cols rows)
  | Raise e => Raise e
  end.

(** [lst[0]]. *)
Definition first {R} (lst : list R) : result R :=
  match lst with
  | r :: _ => Ok r
  | [] => Raise IndexError
  end.

(** The row [spark.createDataFrame([(userId, movieId, genres_list)], ...)]
    holds, and the row [model.transform] makes of it. *)
Record InputRow : Type := {
  in_userId : Z;
  in_movieId : Z;
  in_genres_list : list string
}.

(** [spark.createDataFrame(rows, ["userId", "movieId", "genres_list"])]
    infers the column types from the rows. The element type of
    [genres_list] is known from a row whose list is not empty; when no row
    has one, and when there is no row at all, the call raises instead of
    building a DataFrame. *)
Definition has_genre (r : InputRow) : bool :=
  match in_genres_list r with
  | [] => false
  | _ :: _ => true
  end.

Definition cannot_determine_type : exn :=
  PySparkValueError "CANNOT_DETERMINE_TYPE".

Definition createDataFrame (rows : list InputRow) : DataFrame InputRow :=
  match rows with
  | [] => Raise (PySparkValueError "CANNOT_INFER_EMPTY_SCHEMA")
  | _ :: _ =>
      if existsb has_genre rows then Ok rows else Raise cannot_determine_type
  end.

Record FeatureRow : Type := {
  userId : Z;
  movieId : Z;
  genres_list : list string;
  user_index : nat;
  user_vector : Vector;
  movie_index : nat;
  movie_vector : Vector;
  raw_features : Vector;
  movie_genre_features : Vector
}.

Definition unseen_label : exn := SparkException "Unseen label".

(** The stages applied to one row, in pipeline order. *)
Definition transform_row (pm : PipelineModel) (r : InputRow) : result FeatureRow :=
  match user_indexer pm (in_userId r) with
  | None => Raise unseen_label
  | Some ui =>
      match movie_indexer pm (in_movieId r) with
      | None => Raise unseen_label
      | Some mi =>
          let raw := hashingTF pm (in_genres_list r) in
          Ok {| userId := in_userId r;
                movieId := in_movieId r;
                genres_list := in_genres_list r;
                user_index := ui;
                user_vector := user_encoder pm ui;
                movie_index := mi;
                movie_vector := movie_encoder pm mi;
                raw_features := raw;
                movie_genre_features := idf pm raw |}
      end
  end.

Fixpoint transform_rows (pm : PipelineModel) (rows : list InputRow)
  : result (list FeatureRow) :=
  match rows with
  | [] => Ok []
  | r :: rest =>
      match transform_row pm r with
      | Raise e => Raise e
      | Ok fr =>
          match transform_rows pm rest with
          | Raise e => Raise e
          | Ok frs => Ok (fr :: frs)
          end
      end
  end.

(** [model.transform(df)]. *)
Definition pipeline_transform (pm : PipelineModel) (df : DataFrame InputRow)
  : DataFrame FeatureRow :=
  match df with
  | Ok rows => transform_rows pm rows
  | Raise e => Raise e
  end.

(** [collaborative_model.transform(df)] on the columns
    (user_index, movie_index): the [prediction] column, and, the estimator
    being built with [coldStartStrategy="drop"], without the rows whose
    prediction is NaN. *)
Definition als_transform (am : ALSModel) (df : DataFrame (nat * nat))
  : DataFrame float :=
  match df with
  | Ok rows =>
      Ok (filter (fun p => negb (is_nan p))
                 (map (fun r => als_predict am (fst r) (snd r)) rows))
  | Raise e => Raise e
  end.

(** [content_model.transform(df)] on the columns
    (movie_vector, movie_genre_features): the assembler concatenates its
    input columns into [movie_features], the forest predicts from them. *)
Definition assemble (r : Vector * Vector) : Vector := fst r ++ snd r.

Definition content_transform (cm : ContentModel) (df : DataFrame (Vector * Vector))
  : DataFrame float :=
  match df with
  | Ok rows => Ok (map (fun r => rf_predict cm (assemble r)) rows)
  | Raise e => Raise e
  end.

(** [df.select("prediction").collect()[0][0]]. *)
Definition first_prediction (df : DataFrame float) : result float :=
  match collect df with
  | Ok rows => first rows
  | Raise e => Raise e
  end.

(* ================================================================= *)
(** ** The hybrid predictor *)

Definition transformed_df (g : Globals) (userId movieId : Z)
  (genres_list : list string) : DataFrame FeatureRow :=
  let input_df :=
    createDataFrame
      [{| in_userId := userId; in_movieId := movieId;
          in_genres_list := genres_list |}] in
  pipeline_transform (model g) input_df.

(** The features the content model sees for a movie: the assembled
    (movie_vector, movie_genre_features) of its row. *)
Definition movie_features (g : Globals) (genres_list : list string) (mi : nat)
  : Vector :=
  movie_encoder (model g) mi ++ idf (model g) (hashingTF (model g) genres_list).

(** The local [cf_score] of [hybrid_predict]. *)
Definition cf_score (userId movieId : Z) (genres_list : list string) : M float :=
  g <- read_globals ;;
  let cf_prediction :=
    als_transform (collaborative_model g)
      (select (fun r => (user_index r, movie_index r))
              (transformed_df g userId movieId genres_list)) in
  lift (first_prediction cf_prediction).

(** The local [cb_score] of [hybrid_predict]. *)
Definition cb_score (userId movieId : Z) (genres_list : list string) : M float :=
  g <- read_globals ;;
  let cb_prediction :=
    content_transform (content_model g)
      (select (fun r => (movie_vector r, movie_genre_features r))
              (transformed_df g userId movieId genres_list)) in
  lift (first_prediction cb_prediction).

Definition hybrid_predict (userId movieId : Z) (genres_list : list string)
  : M float :=
  emit (CallHybridPredict userId movieId genres_list) ;;;
  cf <- cf_score userId movieId genres_list ;;
  cb <- cb_score userId movieId genres_list ;;
  ret (0.7 * cf + 0.3 * cb)%float.

(* ================================================================= *)
(** ** [sorted] *)

(** Python's [sorted(iterable, key=..., reverse=...)] is a stable comparison
    sort that compares keys with [<] only; with [reverse=True] it reverses
    the list, sorts it, and reverses the result, which keeps elements with
    equal keys in their original order. It is modelled by a stable
    insertion sort: on keys that [<] orders totally every stable sort
    returns the same list. *)
Section Sorting.
Context {A : Type} (key : A -> float).

Fixpoint insort (x : A) (l : list A) : list A :=
  match l with
  | [] => [x]
  | y :: l' =>
      if (key y <? key x)%float then y :: insort x l' else x :: y :: l'
  end.

Fixpoint stable_sort (l : list A) : list A :=
  match l with
  | [] => []
  | x :: l' => insort x (stable_sort l')
  end.

Definition sorted (reverse : bool) (l : list A) : list A :=
  if reverse then rev (stable_sort (rev l)) else stable_sort l.
End Sorting.

(* ================================================================= *)
(** ** The Flask application *)

Inductive http_method : Type := GET | POST.

(** [request.json], a dict: each key is present or not. The model covers
    the requests whose body is a JSON object sent as JSON and whose present
    fields have the documented JSON types; a body that is not JSON is
    refused by [request.json] itself and is not a value of this type. *)
Record RequestJson : Type := {
  json_userId : option Z;
  json_movieIds : option (list Z);
  json_genres_lists : option (list (list string))
}.

Record Request : Type := {
  path : string;
  method : http_method;
  json : RequestJson
}.

(** JSON values of response bodies. *)
Inductive json_value : Type :=
| JInt (n : Z)
| JFloat (x : float)
| JStr (s : string)
| JArr (items : list json_value)
| JObj (members : list (string * json_value)).

Inductive body : Type :=
| Html (text : string)
| Json (j : json_value).

Record Response : Type := {
  status : Z;
  payload : body
}.

(** [d[key]]. *)
Definition getitem {A} (key : string) (field : option A) : M A :=
  match field with
  | Some a => ret a
  | None => raise (KeyError key)
  end.

(** The dict [{'movieId': movieId, 'score': score}]. *)
Record Recommendation : Type := {
  rec_movieId : Z;
  score : float
}.

Definition json_of_recommendation (r : Recommendation) : json_value :=
  JObj [("movieId"%string, JInt (rec_movieId r));
        ("score"%string, JFloat (score r))].

Definition jsonify_recommendations (l : list Recommendation) : body :=
  Json (JArr (map json_of_recommendation l)).

Definition home : M body :=
  ret (Html "<h1>Movie Recommendation Service</h1><p>Use /recommend endpoint for recommendations.</p>").

(** The [for] loop of [recommend] over [zip(movieIds, genres_lists)],
    appending to [recommendations]. *)
Fixpoint score_each (userId : Z) (pairs : list (Z * list string))
  (recommendations : list Recommendation) : M (list Recommendation) :=
  match pairs with
  | [] => ret recommendations
  | (movieId, genres_list) :: rest =>
      s <- hybrid_predict userId movieId genres_list ;;
      score_each userId rest
        (recommendations ++ [{| rec_movieId := movieId; score := s |}])
  end.

(** Python's [zip] stops at the end of the shorter list, as [combine]. *)
Definition zip {A B} (l : list A) (l' : list B) : list (A * B) := combine l l'.

Definition recommend (request : Request) : M body :=
  match method request with
  | POST =>
      userId <- getitem "userId" (json_userId (json request)) ;;
      movieIds <- getitem "movieIds" (json_movieIds (json request)) ;;
      genres_lists <- getitem "genres_lists" (json_genres_lists (json request)) ;;
      recommendations <- score_each userId (zip movieIds genres_lists) [] ;;
      ret (jsonify_recommendations (sorted score true recommendations))
  | GET =>
      ret (Html "<h1>This endpoint is for recommending movies. Please use POST to submit data.</h1>")
  end.

(** [shutdown_worker] sleeps, then joins the serving thread for at most a
    tenth of a second; it assigns no global. *)
Definition shutdown : M body :=
  g <- read_globals ;;
  write_globals (set_server_active false g) ;;;
  emit (StartThread "shutdown_worker") ;;;
  ret (Json (JObj [("status"%string, JStr "Server shutting down...")])).

(** The routes registered with [@app.route]. *)
Inductive endpoint : Type :=
| View (view : M body)
| NotFound
| MethodNotAllowed.

Definition route (request : Request) : endpoint :=
  if (path request =? "/")%string then
    match method request with
    | GET => View home
    | POST => MethodNotAllowed
    end
  else if (path request =? "/recommend")%string then
    View (recommend request)
  else if (path request =? "/shutdown")%string then
    match method request with
    | POST => View shutdown
    | GET => MethodNotAllowed
    end
  else NotFound.

(** Flask answers a request: the value a view returns is sent with status
    200; an exception escaping the view is logged and answered with
    500 Internal Server Error, and the application goes on serving. *)
Definition wsgi_app (request : Request) : Globals -> outcome Response :=
  fun g =>
    match route request with
    | View view =>
        let o := view g in
        {| value :=
             Ok match value o with
                | Ok b => {| status := 200; payload := b |}
                | Raise _ =>
                    {| status := 500; payload := Html "Internal Server Error" |}
                end;
           globals_after := globals_after o;
           events := events o |}
    | NotFound =>
        ret {| status := 404; payload := Html "Not Found" |} g
    | MethodNotAllowed =>
        ret {| status := 405; payload := Html "Method Not Allowed" |} g
    end.

(** Python's [a <= b], [a >= b] and [a == s] on the keys of two elements. *)
Definition key_le {A : Type} (key : A -> float) (a b : A) : Prop :=
  (key a <=? key b)%float = true.

Definition key_ge {A : Type} (key : A -> float) (a b : A) : Prop :=
  (key b <=? key a)%float = true.

Definition has_key {A : Type} (key : A -> float) (s : float) (a : A) : bool :=
  (key a =? s)%float.

(** The order of a ranked response: each entry scores at least as much as
    the next one ([score[i] >= score[i+1]]). *)
Definition descending (l : list Recommendation) : Prop :=
  Sorted (key_ge score) l.

(** The entries of a list whose score equals [s], in the order of the list. *)
Definition with_score (s : float) (l : list Recommendation)
  : list Recommendation :=
  filter (has_key score s) l.

Definition is_number (x : float) : Prop := is_nan x = false.

(** The pair (userId, movieId) has no collaborative prediction: a label
    the indexers did not see, or a pair whose row the collaborative model
    drops. *)
Definition cold_start (g : Globals) (userId movieId : Z) : Prop :=
  match user_indexer (model g) userId, movie_indexer (model g) movieId with
  | Some ui, Some mi => is_nan (als_predict (collaborative_model g) ui mi) = true
  | _, _ => True
  end.

(** The response to POST /shutdown: what [shutdown] returns, sent with 200. *)
Definition shutting_down : Response :=
  {| status := 200;
     payload := Json (JObj [("status"%string, JStr "Server shutting down...")]) |}.

(** The requests of the notebook's clients. *)
Definition post_recommend (userId : Z) (movieIds : list Z)
  (genres_lists : list (list string)) : Request :=
  {| path := "/recommend"; method := POST;
     json := {| json_userId := Some userId;
                json_movieIds := Some movieIds;
                json_genres_lists := Some genres_lists |} |}.

Definition post_shutdown : Request :=
  {| path := "/shutdown"; method := POST;
     json := {| json_userId := None; json_movieIds := None;
                json_genres_lists := None |} |}.

(* ================================================================= *)
(** ** The serving loop *)

(** [run_flask] builds the server with [make_server(..., threaded=True)],
    sets [server_active] and runs

      [while server_active: server.handle_request()]

    With [threaded=True] a call of [handle_request] waits for one
    connection, accepts it, starts a handler thread for it and returns; the
    handler thread runs the application on the request and sends the
    response. The loop and the handler threads interleave; a handler is
    taken as one step, since each view assigns at most one global, once.
    In the code a view assigns before its response is sent; the theorems
    C8 and X10 to X13 below are stated so that they hold as well when the
    assignment and the response are separate steps. *)
Inductive loop_state : Type :=
| Testing    (* at the test of [while server_active] *)
| Listening  (* inside [server.handle_request()], waiting for a connection *)
| Exited.    (* past the loop *)

Record Server : Type := {
  globals : Globals;
  loop : loop_state;
  backlog : list Request;               (* connections not yet accepted *)
  in_flight : list Request;             (* accepted, handler still running *)
  answered : list (Request * Response)  (* handler done, response sent *)
}.

(** The state in which [run_flask] enters its loop. *)
Definition run_flask (g : Globals) : Server :=
  {| globals := set_server_active true g;
     loop := Testing;
     backlog := [];
     in_flight := [];
     answered := [] |}.

Inductive step : Server -> Server -> Prop :=
| step_connect (s : Server) (r : Request) :
    (* a client connects *)
    step s {| globals := globals s; loop := loop s;
              backlog := backlog s ++ [r];
              in_flight := in_flight s; answered := answered s |}
| step_test_true (s : Server) :
    loop s = Testing -> server_active (globals s) = true ->
    step s {| globals := globals s; loop := Listening;
              backlog := backlog s;
              in_flight := in_flight s; answered := answered s |}
| step_test_false (s : Server) :
    loop s = Testing -> server_active (globals s) = false ->
    step s {| globals := globals s; loop := Exited;
              backlog := backlog s;
              in_flight := in_flight s; answered := answered s |}
| step_accept (s : Server) (r : Request) (rest : list Request) :
    (* [handle_request] accepts a connection and starts its thread *)
    loop s = Listening -> backlog s = r :: rest ->
    step s {| globals := globals s; loop := Testing;
              backlog := rest;
              in_flight := in_flight s ++ [r]; answered := answered s |}
| step_handle (s : Server) (before after : list Request) (r : Request)
    (resp : Response) :
    (* a handler thread runs the application and responds *)
    in_flight s = before ++ r :: after ->
    value (wsgi_app r (globals s)) = Ok resp ->
    step s {| globals := globals_after (wsgi_app r (globals s));
              loop := loop s;
              backlog := backlog s;
              in_flight := before ++ after;
              answered := answered s ++ [(r, resp)] |}.

Definition steps : Server -> Server -> Prop := clos_refl_trans_1n Server step.

(** The requests the server has accepted so far. *)
Definition accepted (s : Server) : list Request :=
  map fst (answered s) ++ in_flight s.

(* ================================================================= *)
(** ** A fitted system to run the definitions on *)

Module Demo.

Definition one_hot (size index : nat) : Vector :=
  map (fun i => if Nat.eqb i index then 1%float else 0%float) (seq 0 size).

(** Users 1 and 2 and the five movies of the notebook's request are known. *)
Definition demo_pipeline : PipelineModel :=
  {| user_indexer := fun u =>
       if u =? 1 then Some 0%nat else if u =? 2 then Some 1%nat else None;
     user_encoder := one_hot 1;
     movie_indexer := fun m =>
       if m =? 1 then Some 0%nat else if m =? 3 then Some 1%nat
       else if m =? 6 then Some 2%nat else if m =? 47 then Some 3%nat
       else if m =? 50 then Some 4%nat else None;
     movie_encoder := one_hot 4;
     hashingTF := map (fun _ => 1%float);
     idf := map (fun x => (x * 0.5)%float) |}.

Definition demo_als : ALSModel :=
  {| als_predict := fun u m =>
       match u, m with
       | O, O => 1.0%float
       | O, 1%nat => 0.5%float
       | O, 2%nat => 0.5%float
       | O, 3%nat => 0.75%float
       | O, 4%nat => 0.875%float
       | 1%nat, O => 0.25%float
       | _, _ => nan
       end |}.

Definition demo_content : ContentModel :=
  {| rf_predict := fun features =>
       match features with
       | x :: _ => (3 + x)%float
       | [] => 3%float
       end |}.

Definition demo : Globals :=
  {| model := demo_pipeline;
     collaborative_model := demo_als;
     content_model := demo_content;
     server_active := true |}.

Definition demo_movieIds : list Z := [1; 3; 6; 47; 50].

Definition demo_genres_lists : list (list string) :=
  [["Adventure"; "Animation"; "Children"; "Comedy"; "Fantasy"];
   ["Comedy"; "Romance"];
   ["Action"; "Crime"; "Thriller"];
   ["Mystery"; "Thriller"];
   ["Crime"; "Mystery"; "Thriller"]]%string.

(** The entries the loop of [recommend] builds for the notebook's request,
    in input order. *)
Definition demo_recommendations : list Recommendation :=
  Eval vm_compute in
    match value (score_each 1 (zip demo_movieIds demo_genres_lists) [] demo) with
    | Ok l => l
    | Raise _ => []
    end.

End Demo.

(* ================================================================= *)
(** ** Loading the data *)

(** A row of [ratings.csv] and a row of [movies.csv]; the CSV reader gives
    null for an empty field. *)
Record Rating : Type := {
  rating_userId : Z;
  rating_movieId : Z;
  rating_value : float;
  rating_timestamp : Z
}.

Record Movie : Type := {
  movie_movieId : Z;
  movie_title : option string;
  movie_genres : option string
}.

(** A row of [ratings_df.join(movies_df, on="movieId", how="left")]. *)
Record JoinedRow : Type := {
  joined_rating : Rating;
  joined_title : option string;
  joined_genres : option string
}.

(** The rows of the catalog with the movieId of a rating. *)
Definition movies_of (r : Rating) (movies_df : list Movie) : list Movie :=
  filter (fun m => movie_movieId m =? rating_movieId r) movies_df.

(** A left join keeps a left row without a match, with nulls on the right,
    and gives one row per match otherwise. *)
Definition join_rating (movies_df : list Movie) (r : Rating) : list JoinedRow :=
  match movies_of r movies_df with
  | [] => [{| joined_rating := r; joined_title := None; joined_genres := None |}]
  | ms =>
      map (fun m => {| joined_rating := r;
                       joined_title := movie_title m;
                       joined_genres := movie_genres m |}) ms
  end.

Definition left_join (ratings_df : list Rating) (movies_df : list Movie)
  : list JoinedRow :=
  flat_map (join_rating movies_df) ratings_df.

(** [F.split(col, pattern)] for a pattern that matches the one character
    [sep]: the pieces between the separators, empty pieces included. *)
Fixpoint split (sep : Ascii.ascii) (s : string) : list string :=
  match s with
  | EmptyString => [EmptyString]
  | String c rest =>
      if Ascii.eqb c sep then EmptyString :: split sep rest
      else
        match split sep rest with
        | piece :: pieces => String c piece :: pieces
        | [] => [String c EmptyString]
        end
  end.

(** The character [|] (code 124), which the pattern [\|] matches. *)
Definition pipe : Ascii.ascii := Eval compute in Ascii.ascii_of_nat 124.

(** [model_df]: the joined rows with the column [genres_list], null where
    [genres] is null. *)
Definition model_df (ratings_df : list Rating) (movies_df : list Movie)
  : list (JoinedRow * option (list string)) :=
  map (fun j => (j, option_map (split pipe) (joined_genres j)))
      (left_join ratings_df movies_df).

(** The occurrences of a character in a string. *)
Fixpoint occurrences (c : Ascii.ascii) (s : string) : nat :=
  match s with
  | EmptyString => 0%nat
  | String c' rest =>
      if Ascii.eqb c' c then S (occurrences c rest) else occurrences c rest
  end.

(* ================================================================= *)
(** ** Stopping the server from the notebook *)

(** [flask_thread.is_alive()]: the thread runs [run_flask] and ends when
    the loop is left. *)
Definition is_alive (thread : Server) : bool :=
  match loop thread with
  | Exited => false
  | _ => true
  end.

(** [stop_flask()] on the global [flask_thread] ([None] before the first
    [start_flask]); it returns ["No server running"] or nothing. *)
Definition stop_flask (flask_thread : option Server)
  : option string * option Server :=
  match flask_thread with
  | None => (Some "No server running"%string, None)
  | Some thread =>
      if is_alive thread then
        (None,
         Some {| globals := set_server_active false (globals thread);
                 loop := loop thread;
                 backlog := backlog thread;
                 in_flight := in_flight thread;
                 answered := answered thread |})
      else (Some "No server running"%string, Some thread)
  end.

(* ================================================================= *)
(** ** Statements about requests and the loop *)

(** The call of the predictor the loop of [recommend] makes for a pair. *)
Definition call_of (userId : Z) (p : Z * list string) : event :=
  CallHybridPredict userId (fst p) (snd p).

(** The prediction for a pair of the loop returns. *)
Definition predicted (g : Globals) (userId : Z) (p : Z * list string) : Prop :=
  exists s, value (hybrid_predict userId (fst p) (snd p) g) = Ok s.

Definition post_recommend_body (body : RequestJson) : Request :=
  {| path := "/recommend"; method := POST; json := body |}.

Definition is_post_shutdown (r : Request) : bool :=
  (path r =? "/shutdown")%string &&
  match method r with POST => true | GET => false end.

(** The globals differ in [server_active] at most. *)
Definition same_models (g g' : Globals) : Prop :=
  model g' = model g /\
  collaborative_model g' = collaborative_model g /\
  content_model g' = content_model g.

(** What holds of every state of a server started from [g]: the globals are
    those of [g] up to the flag, each answer is the application's answer
    from [g], a cleared flag comes from an answered POST /shutdown, and the
    loop has exited on a cleared flag only. *)
Definition serving_invariant (g : Globals) (s : Server) : Prop :=
  (exists b, globals s = set_server_active b g) /\
  (forall r resp, In (r, resp) (answered s) -> value (wsgi_app r g) = Ok resp) /\
  (server_active (globals s) = false ->
   exists r resp, In (r, resp) (answered s) /\ is_post_shutdown r = true) /\
  (loop s = Exited -> server_active (globals s) = false).

(** A server waiting for a connection, and one that has answered a
    POST /shutdown and left its loop. *)
Definition demo_listening (flag : bool) : Server :=
  {| globals := set_server_active flag Demo.demo;
     loop := Listening;
     backlog := [];
     in_flight := [];
     answered := [] |}.

Definition demo_exited : Server :=
  {| globals := set_server_active false Demo.demo;
     loop := Exited;
     backlog := [];
     in_flight := [];
     answered := [(post_shutdown, shutting_down)] |}.

Definition demo_exited_after (r : Request) : Server :=
  {| globals := set_server_active false Demo.demo;
     loop := Exited;
     backlog := [];
     in_flight := [r];
     answered := [] |}.

(** Three ratings and a catalog of two movies; movie 999 is not in the
    catalog. *)
Definition demo_ratings : list Rating :=
  [{| rating_userId := 1; rating_movieId := 1; rating_value := 4.0;
      rating_timestamp := 964982703 |};
   {| rating_userId := 1; rating_movieId := 3; rating_value := 4.0;
      rating_timestamp := 964981247 |};
   {| rating_userId := 2; rating_movieId := 999; rating_value := 5.0;
      rating_timestamp := 964983815 |}].

Definition demo_movies : list Movie :=
  [{| movie_movieId := 1; movie_title := Some "Toy Story (1995)"%string;
      movie_genres := Some "Adventure|Animation|Children|Comedy|Fantasy"%string |};
   {| movie_movieId := 3; movie_title := Some "Grumpier Old Men (1995)"%string;
      movie_genres := Some "Comedy|Romance"%string |}].

(* ================================================================= *)
(** ** Ordering of binary64 scores *)

(** Python compares the sort keys with [<]; on floats this is the IEEE
    comparison, under which NaN is unordered. The facts below are what a
    comparison sort needs from [<], [<=] and [==] on scores that are numbers. *)

Module FloatOrder.

Lemma compare_cont_Eq_eq (p q : positive) :
  Pos.compare_cont Eq p q = Eq -> p = q.
Proof. apply Pos.compare_eq. Qed.

Lemma compare_cont_antisym (p q : positive) :
  Pos.compare_cont Eq q p = CompOpp (Pos.compare_cont Eq p q).
Proof. apply (Pos.compare_antisym p q). Qed.

Lemma SFcompare_antisym (x y : spec_float) :
  SFcompare y x = option_map CompOpp (SFcompare x y).
Proof.
  destruct x as [sx|sx| |sx mx ex], y as [sy|sy| |sy my ey];
    try destruct sx; try destruct sy; cbn; try reflexivity;
    rewrite (Z.compare_antisym ey ex); destruct (ey ?= ex)%Z; cbn;
    try reflexivity; rewrite compare_cont_antisym;
    destruct (Pos.compare_cont Eq mx my); reflexivity.
Qed.

Lemma SFcompare_defined (x y : spec_float) :
  sf_is_nan x = false -> sf_is_nan y = false -> exists c, SFcompare x y = Some c.
Proof.
  destruct x as [sx|sx| |sx mx ex], y as [sy|sy| |sy my ey];
    cbn; intros Hx Hy; try discriminate; eauto.
Qed.

(** Two scores that compare equal are interchangeable on the right of a
    comparison. *)
Lemma SFcompare_Eq_right (y x s : spec_float) :
  SFcompare x s = Some Eq -> SFcompare y s = SFcompare y x.
Proof.
  destruct x as [sx|sx| |sx mx ex], s as [ss|ss| |ss ms es];
    try destruct sx; try destruct ss; cbn; intros H; try discriminate;
    try (destruct y as [sy|sy| |sy my ey]; reflexivity);
    destruct (ex ?= es)%Z eqn:He; try discriminate;
    apply Z.compare_eq in He; subst es.
  - assert (mx = ms).
    { apply compare_cont_Eq_eq.
      destruct (Pos.compare_cont Eq mx ms); cbn in H; congruence. }
    subst; reflexivity.
  - assert (mx = ms) by (apply compare_cont_Eq_eq; congruence).
    subst; reflexivity.
Qed.

Lemma is_nan_spec (x : float) : is_nan x = sf_is_nan (Prim2SF x).
Proof.
  unfold is_nan. rewrite eqb_spec. unfold SFeqb.
  destruct (Prim2SF x) as [s|s| |s m e]; try destruct s; cbn; try reflexivity;
    rewrite Z.compare_refl, Pos.compare_cont_refl; reflexivity.
Qed.

(** [<] implies [<=]. *)
Lemma ltb_leb (x y : float) : (x <? y)%float = true -> (x <=? y)%float = true.
Proof.
  rewrite ltb_spec, leb_spec. unfold SFltb, SFleb.
  destruct (SFcompare _ _) as [[]|]; easy.
Qed.

(** On numbers the order is total: not [x < y] gives [y <= x]. *)
Lemma not_ltb_leb (x y : float) :
  is_nan x = false -> is_nan y = false ->
  (x <? y)%float = false -> (y <=? x)%float = true.
Proof.
  rewrite !is_nan_spec, ltb_spec, leb_spec. unfold SFltb, SFleb.
  intros Hx Hy. rewrite (SFcompare_antisym (Prim2SF x) (Prim2SF y)).
  destruct (SFcompare_defined _ _ Hx Hy) as [c ->].
  destruct c; cbn; easy.
Qed.

(** A score strictly below [x] is not equal to anything equal to [x]. *)
Lemma ltb_eqb_right (y x s : float) :
  (y <? x)%float = true -> (x =? s)%float = true -> (y =? s)%float = false.
Proof.
  rewrite ltb_spec, !eqb_spec. unfold SFltb, SFeqb. intros Hlt Heq.
  rewrite (SFcompare_Eq_right (Prim2SF y) (Prim2SF x) (Prim2SF s)).
  - destruct (SFcompare (Prim2SF y) (Prim2SF x)) as [[]|]; easy.
  - destruct (SFcompare (Prim2SF x) (Prim2SF s)) as [[]|]; easy.
Qed.

End FloatOrder.

(* ================================================================= *)
(** ** The predictor: value, globals and events of a call *)

Section Predictor.
Variable g : Globals.
Variables (userId movieId : Z) (genres_list : list string).

Lemma cf_score_value :
  value (cf_score userId movieId genres_list g) =
  match genres_list with
  | [] => Raise cannot_determine_type
  | _ :: _ =>
      match user_indexer (model g) userId, movie_indexer (model g) movieId with
      | Some ui, Some mi =>
          if is_nan (als_predict (collaborative_model g) ui mi)
          then Raise IndexError
          else Ok (als_predict (collaborative_model g) ui mi)
      | _, _ => Raise unseen_label
      end
  end.
Proof.
  unfold cf_score, transformed_df, bind, read_globals, lift; cbn.
  destruct genres_list as [|genre genres]; [reflexivity|].
  cbn. unfold transform_row; cbn.
  destruct (user_indexer (model g) userId) as [ui|]; [|reflexivity].
  destruct (movie_indexer (model g) movieId) as [mi|]; [|reflexivity].
  cbn. destruct (is_nan _); reflexivity.
Qed.

(** The collaborative score of a returning call is a number: the rows with
    a NaN prediction are dropped. *)
Lemma cf_score_is_number (cf : float) :
  value (cf_score userId movieId genres_list g) = Ok cf -> is_number cf.
Proof.
  rewrite cf_score_value.
  destruct genres_list as [|genre genres]; [discriminate|].
  destruct (user_indexer (model g) userId) as [ui|]; [|discriminate].
  destruct (movie_indexer (model g) movieId) as [mi|]; [|discriminate].
  destruct (is_nan (als_predict (collaborative_model g) ui mi)) eqn:Hnan;
    [discriminate|].
  intros [= <-]. exact Hnan.
Qed.

Lemma cb_score_value :
  value (cb_score userId movieId genres_list g) =
  match genres_list with
  | [] => Raise cannot_determine_type
  | _ :: _ =>
      match user_indexer (model g) userId, movie_indexer (model g) movieId with
      | Some ui, Some mi =>
          Ok (rf_predict (content_model g) (movie_features g genres_list mi))
      | _, _ => Raise unseen_label
      end
  end.
Proof.
  unfold cb_score, transformed_df, bind, read_globals, lift; cbn.
  destruct genres_list as [|genre genres]; [reflexivity|].
  cbn. unfold transform_row; cbn.
  destruct (user_indexer (model g) userId) as [ui|]; [|reflexivity].
  destruct (movie_indexer (model g) movieId) as [mi|]; reflexivity.
Qed.

Lemma cf_score_globals :
  globals_after (cf_score userId movieId genres_list g) = g.
Proof. reflexivity. Qed.

Lemma cb_score_globals :
  globals_after (cb_score userId movieId genres_list g) = g.
Proof. reflexivity. Qed.

Lemma hybrid_predict_bind :
  value (hybrid_predict userId movieId genres_list g) =
  match value (cf_score userId movieId genres_list g) with
  | Ok cf =>
      match value (cb_score userId movieId genres_list g) with
      | Ok cb => Ok (0.7 * cf + 0.3 * cb)%float
      | Raise e => Raise e
      end
  | Raise e => Raise e
  end.
Proof.
  unfold hybrid_predict, bind, emit, ret; cbn.
  change (value (lift ?r g)) with r.
  destruct (value (cf_score userId movieId genres_list g)) as [cf|e] eqn:Hcf;
    unfold cf_score, bind, read_globals in Hcf; cbn in Hcf; rewrite Hcf; cbn;
    [|reflexivity].
  destruct (value (cb_score userId movieId genres_list g)) as [cb|e] eqn:Hcb;
    unfold cb_score, bind, read_globals in Hcb; cbn in Hcb; rewrite Hcb;
    reflexivity.
Qed.

Lemma hybrid_predict_value :
  value (hybrid_predict userId movieId genres_list g) =
  match genres_list with
  | [] => Raise cannot_determine_type
  | _ :: _ =>
      match user_indexer (model g) userId, movie_indexer (model g) movieId with
      | Some ui, Some mi =>
          if is_nan (als_predict (collaborative_model g) ui mi)
          then Raise IndexError
          else Ok (0.7 * als_predict (collaborative_model g) ui mi
                   + 0.3 * rf_predict (content_model g)
                             (movie_features g genres_list mi))%float
      | _, _ => Raise unseen_label
      end
  end.
Proof.
  rewrite hybrid_predict_bind, cf_score_value, cb_score_value.
  destruct genres_list as [|genre genres]; [reflexivity|].
  destruct (user_indexer (model g) userId) as [ui|]; [|reflexivity].
  destruct (movie_indexer (model g) movieId) as [mi|]; [|reflexivity].
  destruct (is_nan _); reflexivity.
Qed.

Lemma hybrid_predict_globals :
  globals_after (hybrid_predict userId movieId genres_list g) = g.
Proof.
  unfold hybrid_predict, bind, emit, ret; cbn.
  change (value (lift ?r g)) with r.
  repeat (match goal with
          | |- context [match ?r with Ok _ => _ | Raise _ => _ end] =>
              destruct r; cbn
          end); reflexivity.
Qed.

Lemma hybrid_predict_events :
  events (hybrid_predict userId movieId genres_list g) =
  [CallHybridPredict userId movieId genres_list].
Proof.
  unfold hybrid_predict, bind, emit, ret; cbn.
  change (value (lift ?r g)) with r.
  repeat (match goal with
          | |- context [match ?r with Ok _ => _ | Raise _ => _ end] =>
              destruct r; cbn
          end); reflexivity.
Qed.
End Predictor.

(* ================================================================= *)
(** ** [sorted]: permutation, order and stability *)

Section SortingFacts.
Context {A : Type} (key : A -> float).

Lemma insort_perm (x : A) (l : list A) : Permutation (insort key x l) (x :: l).
Proof.
  induction l as [|y l IH]; cbn; [reflexivity|].
  destruct (key y <? key x)%float; [|reflexivity].
  rewrite IH. apply perm_swap.
Qed.

Lemma stable_sort_perm (l : list A) : Permutation (stable_sort key l) l.
Proof.
  induction l as [|x l IH]; cbn; [reflexivity|].
  rewrite insort_perm. now constructor.
Qed.

Lemma sorted_perm (reverse : bool) (l : list A) :
  Permutation (sorted key reverse l) l.
Proof.
  destruct reverse; cbn; [|apply stable_sort_perm].
  rewrite <- Permutation_rev, stable_sort_perm. symmetry. apply Permutation_rev.
Qed.

Lemma insort_hd (R : A -> A -> Prop) (z x : A) (l : list A) :
  R z x -> HdRel R z l -> HdRel R z (insort key x l).
Proof.
  intros Hx Hl. destruct l as [|y l]; cbn; [now constructor|].
  destruct (key y <? key x)%float; constructor; [|assumption].
  now inversion Hl.
Qed.

Lemma insort_ascending (x : A) (l : list A) :
  is_nan (key x) = false -> Forall (fun a => is_nan (key a) = false) l ->
  Sorted (key_le key) l -> Sorted (key_le key) (insort key x l).
Proof.
  intros Hx Hl Hs. induction Hs as [|y l Hs IH Hhd]; cbn.
  - repeat constructor.
  - inversion Hl as [|? ? Hy Hl']; subst.
    destruct (key y <? key x)%float eqn:Hlt.
    + constructor; [now apply IH|].
      apply insort_hd; [|assumption].
      now apply FloatOrder.ltb_leb.
    + constructor; [now constructor|]. constructor.
      now apply FloatOrder.not_ltb_leb.
Qed.

Lemma stable_sort_ascending (l : list A) :
  Forall (fun a => is_nan (key a) = false) l -> Sorted (key_le key) (stable_sort key l).
Proof.
  induction 1 as [|x l Hx Hl IH]; cbn; [constructor|].
  apply insort_ascending; try assumption.
  eapply Permutation_Forall; [|exact Hl].
  symmetry. apply stable_sort_perm.
Qed.

Lemma Sorted_snoc (R : A -> A -> Prop) (l : list A) (y a : A) :
  Sorted R (l ++ [y]) -> R y a -> Sorted R (l ++ [y; a]).
Proof.
  intros Hs Hya. induction l as [|x l IH]; cbn in *.
  - repeat constructor. assumption.
  - inversion Hs as [|? ? Hs' Hhd]; subst. constructor; [now apply IH|].
    destruct l; cbn in *; inversion Hhd; now constructor.
Qed.

Lemma ascending_rev (l : list A) : Sorted (key_le key) l -> Sorted (key_ge key) (rev l).
Proof.
  induction 1 as [|a l Hs IH Hhd]; cbn; [constructor|].
  destruct l as [|b l]; cbn in *; [repeat constructor|].
  rewrite <- app_assoc. cbn. apply Sorted_snoc; [assumption|].
  now inversion Hhd.
Qed.

(** With [reverse=True] and keys that are numbers, the result is in
    descending order of key. *)
Lemma sorted_reverse_descending (l : list A) :
  Forall (fun a => is_nan (key a) = false) l -> Sorted (key_ge key) (sorted key true l).
Proof.
  intros Hl. cbn. apply ascending_rev, stable_sort_ascending.
  eapply Permutation_Forall; [apply Permutation_rev|exact Hl].
Qed.

Lemma insort_filter (s : float) (x : A) (l : list A) :
  filter (has_key key s) (insort key x l) = filter (has_key key s) (x :: l).
Proof.
  induction l as [|y l IH]; cbn; [reflexivity|].
  destruct (key y <? key x)%float eqn:Hlt; [|reflexivity].
  cbn in *. rewrite IH. unfold has_key at 1 3 4 6.
  destruct (key x =? s)%float eqn:Hx; [|reflexivity].
  now rewrite (FloatOrder.ltb_eqb_right _ _ _ Hlt Hx).
Qed.

Lemma stable_sort_filter (s : float) (l : list A) :
  filter (has_key key s) (stable_sort key l) = filter (has_key key s) l.
Proof.
  induction l as [|x l IH]; cbn; [reflexivity|].
  rewrite insort_filter. cbn. now rewrite IH.
Qed.

Lemma filter_rev_comm (p : A -> bool) (l : list A) :
  filter p (rev l) = rev (filter p l).
Proof.
  induction l as [|x l IH]; cbn; [reflexivity|].
  rewrite filter_app, IH. cbn. destruct (p x); cbn; [reflexivity|].
  now rewrite app_nil_r.
Qed.

(** Entries with equal keys keep their order, also with [reverse=True]. *)
Lemma sorted_stable (reverse : bool) (s : float) (l : list A) :
  filter (has_key key s) (sorted key reverse l) = filter (has_key key s) l.
Proof.
  destruct reverse; cbn; [|apply stable_sort_filter].
  rewrite filter_rev_comm, stable_sort_filter, filter_rev_comm.
  apply rev_involutive.
Qed.
End SortingFacts.

(* ================================================================= *)
(** ** Sequencing *)

Section Bind.
Context {A B : Type} (m : M A) (k : A -> M B) (g : Globals).

Lemma bind_value :
  value (bind m k g) =
  match value (m g) with
  | Ok a => value (k a (globals_after (m g)))
  | Raise e => Raise e
  end.
Proof. unfold bind. destruct (value (m g)); reflexivity. Qed.

Lemma bind_globals :
  globals_after (bind m k g) =
  match value (m g) with
  | Ok a => globals_after (k a (globals_after (m g)))
  | Raise _ => globals_after (m g)
  end.
Proof. unfold bind. destruct (value (m g)); reflexivity. Qed.

Lemma bind_events :
  events (bind m k g) =
  match value (m g) with
  | Ok a => events (m g) ++ events (k a (globals_after (m g)))
  | Raise _ => events (m g)
  end.
Proof. unfold bind. destruct (value (m g)); reflexivity. Qed.
End Bind.

(* ================================================================= *)
(** ** The loop of [recommend] *)

Section Loop.
Variable g : Globals.
Variable userId : Z.

Lemma score_each_globals (pairs : list (Z * list string))
  (acc : list Recommendation) :
  globals_after (score_each userId pairs acc g) = g.
Proof.
  revert acc. induction pairs as [|[m gl] rest IH]; intros acc;
    cbn [score_each]; [reflexivity|].
  rewrite bind_globals, hybrid_predict_globals.
  destruct (value (hybrid_predict userId m gl g)); [apply IH|reflexivity].
Qed.

(** A loop that returns has appended one entry per pair, in order, each
    with the pair's movieId and its hybrid score. *)
Lemma score_each_ok (pairs : list (Z * list string))
  (acc out : list Recommendation) :
  value (score_each userId pairs acc g) = Ok out ->
  exists recs,
    out = acc ++ recs /\
    map rec_movieId recs = map fst pairs /\
    Forall2 (fun p r =>
               value (hybrid_predict userId (fst p) (snd p) g) = Ok (score r))
            pairs recs.
Proof.
  revert acc. induction pairs as [|[m gl] rest IH]; intros acc;
    cbn [score_each].
  - intros [= <-]. exists []. now rewrite app_nil_r.
  - rewrite bind_value, hybrid_predict_globals.
    destruct (value (hybrid_predict userId m gl g)) as [s|e] eqn:Hs;
      [|discriminate].
    intros H. destruct (IH _ H) as (recs & -> & Hids & Hall).
    exists ({| rec_movieId := m; score := s |} :: recs).
    rewrite <- app_assoc. cbn. repeat split; [now f_equal|].
    constructor; assumption.
Qed.

(** When every prediction succeeds the loop returns. *)
Lemma score_each_total (pairs : list (Z * list string))
  (acc : list Recommendation) :
  Forall (fun p => exists s,
            value (hybrid_predict userId (fst p) (snd p) g) = Ok s) pairs ->
  exists out, value (score_each userId pairs acc g) = Ok out.
Proof.
  intros Hall. revert acc.
  induction Hall as [|[m gl] rest [s Hs] _ IH]; intros acc;
    cbn [score_each]; [cbn; eauto|].
  cbn [fst snd] in Hs.
  rewrite bind_value, hybrid_predict_globals, Hs. apply IH.
Qed.

(** One failing prediction fails the loop. *)
Lemma score_each_raise (pairs : list (Z * list string))
  (acc : list Recommendation) (m : Z) (gl : list string) :
  In (m, gl) pairs ->
  (exists e, value (hybrid_predict userId m gl g) = Raise e) ->
  exists e, value (score_each userId pairs acc g) = Raise e.
Proof.
  intros Hin Hraise. revert acc.
  induction pairs as [|[m' gl'] rest IH]; intros acc; [destruct Hin|].
  cbn [score_each]. rewrite bind_value, hybrid_predict_globals.
  destruct (value (hybrid_predict userId m' gl' g)) as [s|e] eqn:Hs;
    [|eauto].
  destruct Hin as [[= -> ->]|Hin].
  - destruct Hraise as [e He]. congruence.
  - now apply IH.
Qed.

Variables (movieIds : list Z) (genres_lists : list (list string)).

Lemma recommend_post_value :
  value (recommend (post_recommend userId movieIds genres_lists) g) =
  match value (score_each userId (zip movieIds genres_lists) [] g) with
  | Ok recs => Ok (jsonify_recommendations (sorted score true recs))
  | Raise e => Raise e
  end.
Proof.
  unfold recommend, post_recommend. cbn [method json json_userId json_movieIds
    json_genres_lists getitem].
  repeat (rewrite bind_value; cbn [ret value globals_after]).
  destruct (value (score_each _ _ _ g)); reflexivity.
Qed.

Lemma recommend_post_globals :
  globals_after (recommend (post_recommend userId movieIds genres_lists) g) = g.
Proof.
  unfold recommend, post_recommend. cbn [method json json_userId json_movieIds
    json_genres_lists getitem].
  repeat (rewrite bind_globals; cbn [ret value globals_after]).
  rewrite score_each_globals.
  destruct (value (score_each _ _ _ g)); reflexivity.
Qed.

Lemma wsgi_recommend_value :
  value (wsgi_app (post_recommend userId movieIds genres_lists) g) =
  Ok match value (score_each userId (zip movieIds genres_lists) [] g) with
     | Ok recs =>
         {| status := 200;
            payload := jsonify_recommendations (sorted score true recs) |}
     | Raise _ => {| status := 500; payload := Html "Internal Server Error" |}
     end.
Proof.
  change (wsgi_app (post_recommend userId movieIds genres_lists) g)
    with (let o := recommend (post_recommend userId movieIds genres_lists) g in
          {| value :=
               Ok match value o with
                  | Ok b => {| status := 200; payload := b |}
                  | Raise _ =>
                      {| status := 500; payload := Html "Internal Server Error" |}
                  end;
             globals_after := globals_after o;
             events := events o |}).
  cbn [value]. rewrite recommend_post_value.
  destruct (value (score_each _ _ _ g)); reflexivity.
Qed.

Lemma wsgi_recommend_globals :
  globals_after (wsgi_app (post_recommend userId movieIds genres_lists) g) = g.
Proof.
  change (globals_after (wsgi_app (post_recommend userId movieIds genres_lists) g))
    with (globals_after (recommend (post_recommend userId movieIds genres_lists) g)).
  apply recommend_post_globals.
Qed.
End Loop.

(* ================================================================= *)
(** ** The hybrid score *)

(** C1. When both fitted models yield a prediction, that is, when the
    one-row DataFrame can be built (the genre list is not empty), the
    pipeline knows the user and the movie and the collaborative model keeps
    the pair's row, [hybrid_predict] returns 0.7 times the collaborative
    score of (user_index, movie_index) plus 0.3 times the content score of
    the movie's feature vector. *)
Theorem hybrid_predict_weighted_sum (g : Globals) (userId movieId : Z)
  (genres_list : list string) (ui mi : nat) :
  genres_list <> [] ->
  user_indexer (model g) userId = Some ui ->
  movie_indexer (model g) movieId = Some mi ->
  is_number (als_predict (collaborative_model g) ui mi) ->
  value (hybrid_predict userId movieId genres_list g) =
  Ok (0.7 * als_predict (collaborative_model g) ui mi
      + 0.3 * rf_predict (content_model g) (movie_features g genres_list mi))%float.
Proof.
  intros Hne Hu Hm Hcf. rewrite hybrid_predict_value, Hu, Hm.
  destruct genres_list as [|genre genres]; [now contradiction Hne|].
  unfold is_number in Hcf. now rewrite Hcf.
Qed.

Lemma hybrid_predict_weighted_sum_witness :
  ["Crime"; "Mystery"; "Thriller"]%string <> [] /\
  user_indexer (model Demo.demo) 1 = Some 0%nat /\
  movie_indexer (model Demo.demo) 50 = Some 4%nat /\
  is_number (als_predict (collaborative_model Demo.demo) 0 4) /\
  value (hybrid_predict 1 50 ["Crime"; "Mystery"; "Thriller"]%string Demo.demo) =
  Ok (0.7 * 0.875
      + 0.3 * rf_predict (content_model Demo.demo)
                (movie_features Demo.demo ["Crime"; "Mystery"; "Thriller"]%string 4))%float.
Proof.
  split; [discriminate|]. do 3 (split; [reflexivity|]).
  apply (hybrid_predict_weighted_sum Demo.demo 1 50
           ["Crime"; "Mystery"; "Thriller"]%string 0 4);
    [discriminate|reflexivity..].
Defined.

(** C7. Two calls of [hybrid_predict] that differ only in the user and both
    return have the same content score [cb_score]: the content model's
    prediction for the movie's features. *)
Theorem content_score_independent_of_user (g : Globals) (userId1 userId2 : Z)
  (movieId : Z) (genres_list : list string) (s1 s2 : float) :
  value (hybrid_predict userId1 movieId genres_list g) = Ok s1 ->
  value (hybrid_predict userId2 movieId genres_list g) = Ok s2 ->
  exists cb,
    value (cb_score userId1 movieId genres_list g) = Ok cb /\
    value (cb_score userId2 movieId genres_list g) = Ok cb.
Proof.
  rewrite !hybrid_predict_value, !cb_score_value.
  destruct genres_list as [|genre genres]; [discriminate|].
  destruct (user_indexer (model g) userId1) as [u1|]; [|discriminate].
  destruct (user_indexer (model g) userId2) as [u2|];
    destruct (movie_indexer (model g) movieId) as [mi|]; try discriminate.
  intros _ _. eauto.
Qed.

Lemma content_score_independent_of_user_witness :
  exists cb,
    value (cb_score 1 1 ["Comedy"]%string Demo.demo) = Ok cb /\
    value (cb_score 2 1 ["Comedy"]%string Demo.demo) = Ok cb.
Proof.
  apply (content_score_independent_of_user Demo.demo 1 2 1 ["Comedy"]%string
           (0.7 * 1.0 + 0.3 * 4)%float (0.7 * 0.25 + 0.3 * 4)%float);
    vm_compute; reflexivity.
Defined.

(* ================================================================= *)
(** ** The ranked response *)

(** C2. When every prediction of a POST /recommend request succeeds with a
    score that is a number, the response lists the entries in descending
    order of score (each entry scores at least as much as the next), and
    entries with equal scores are in the order of the request. *)
Theorem recommend_sorted_descending_stable (g : Globals) (userId : Z)
  (movieIds : list Z) (genres_lists : list (list string))
  (recommendations : list Recommendation) :
  value (score_each userId (zip movieIds genres_lists) [] g)
    = Ok recommendations ->
  Forall (fun r => is_number (score r)) recommendations ->
  exists ranked,
    value (wsgi_app (post_recommend userId movieIds genres_lists) g) =
      Ok {| status := 200; payload := jsonify_recommendations ranked |} /\
    map rec_movieId recommendations = map fst (zip movieIds genres_lists) /\
    descending ranked /\
    forall s, with_score s ranked = with_score s recommendations.
Proof.
  intros Hloop Hnum. exists (sorted score true recommendations).
  rewrite wsgi_recommend_value, Hloop. repeat split.
  - destruct (score_each_ok _ _ _ _ _ Hloop) as (recs & -> & Hids & _).
    exact Hids.
  - apply (sorted_reverse_descending score). exact Hnum.
  - intros s. apply (sorted_stable score).
Qed.

Lemma recommend_sorted_descending_stable_witness :
  exists ranked,
    value (wsgi_app (post_recommend 1 Demo.demo_movieIds Demo.demo_genres_lists)
             Demo.demo) =
      Ok {| status := 200; payload := jsonify_recommendations ranked |} /\
    map rec_movieId Demo.demo_recommendations
      = map fst (zip Demo.demo_movieIds Demo.demo_genres_lists) /\
    descending ranked /\
    forall s, with_score s ranked = with_score s Demo.demo_recommendations.
Proof.
  apply (recommend_sorted_descending_stable Demo.demo 1 Demo.demo_movieIds
           Demo.demo_genres_lists Demo.demo_recommendations).
  - vm_compute. reflexivity.
  - repeat constructor.
Defined.

(** C3. When [movieIds] and [genres_lists] have the same length and every
    prediction succeeds, the response lists as many entries as [movieIds],
    and their movieIds are those of the request, each as often as the
    request names it (once, when the request names it once). *)
Theorem recommend_full_list (g : Globals) (userId : Z)
  (movieIds : list Z) (genres_lists : list (list string)) :
  List.length movieIds = List.length genres_lists ->
  Forall (fun p => exists s,
            value (hybrid_predict userId (fst p) (snd p) g) = Ok s)
         (zip movieIds genres_lists) ->
  exists ranked,
    value (wsgi_app (post_recommend userId movieIds genres_lists) g) =
      Ok {| status := 200; payload := jsonify_recommendations ranked |} /\
    List.length ranked = List.length movieIds /\
    Permutation (map rec_movieId ranked) movieIds /\
    forall m, count_occ Z.eq_dec (map rec_movieId ranked) m
              = count_occ Z.eq_dec movieIds m.
Proof.
  intros Hlen Hall.
  destruct (score_each_total g userId _ [] Hall) as [recs Hloop].
  exists (sorted score true recs).
  rewrite wsgi_recommend_value, Hloop.
  destruct (score_each_ok _ _ _ _ _ Hloop) as (recs' & Heq & Hids & _).
  cbn in Heq. subst recs'.
  assert (Hfst : map fst (zip movieIds genres_lists) = movieIds).
  { unfold zip. clear -Hlen. revert genres_lists Hlen.
    induction movieIds as [|m ms IH]; intros [|gl gls] Hlen; cbn in *;
      try discriminate; [reflexivity|].
    f_equal. apply IH. now injection Hlen. }
  rewrite Hfst in Hids.
  assert (Hperm : Permutation (map rec_movieId (sorted score true recs)) movieIds).
  { rewrite <- Hids. apply Permutation_map, sorted_perm. }
  repeat split.
  - rewrite <- (length_map rec_movieId).
    rewrite (Permutation_length Hperm). reflexivity.
  - exact Hperm.
  - intros m. now apply Permutation_count_occ.
Qed.

Lemma recommend_full_list_witness :
  exists ranked,
    value (wsgi_app (post_recommend 1 Demo.demo_movieIds Demo.demo_genres_lists)
             Demo.demo) =
      Ok {| status := 200; payload := jsonify_recommendations ranked |} /\
    List.length ranked = List.length Demo.demo_movieIds /\
    Permutation (map rec_movieId ranked) Demo.demo_movieIds /\
    forall m, count_occ Z.eq_dec (map rec_movieId ranked) m
              = count_occ Z.eq_dec Demo.demo_movieIds m.
Proof.
  apply (recommend_full_list Demo.demo 1 Demo.demo_movieIds
           Demo.demo_genres_lists).
  - reflexivity.
  - repeat constructor; eexists; vm_compute; reflexivity.
Defined.

(** C9. A POST /recommend request whose [movieIds] and [genres_lists] are
    both empty is answered with status 200 and an empty JSON array; the
    predictor is not called and the globals are left as they were. *)
Theorem recommend_empty_request (g : Globals) (userId : Z) :
  let answer := wsgi_app (post_recommend userId [] []) g in
  value answer = Ok {| status := 200; payload := Json (JArr []) |} /\
  events answer = [] /\
  globals_after answer = g.
Proof. repeat split. Qed.

(* ================================================================= *)
(** ** Cold start *)

Lemma cold_start_predict_raises (g : Globals) (userId movieId : Z)
  (genres_list : list string) :
  cold_start g userId movieId ->
  exists e, value (hybrid_predict userId movieId genres_list g) = Raise e.
Proof.
  unfold cold_start. rewrite hybrid_predict_value.
  destruct genres_list as [|genre genres]; [eauto|].
  destruct (user_indexer (model g) userId) as [ui|]; [|eauto].
  destruct (movie_indexer (model g) movieId) as [mi|]; [|eauto].
  intros ->. eauto.
Qed.

(** C4, as the claim states it, fails: movie 999 was not seen while fitting;
    [hybrid_predict] raises for it instead of returning a fallback score,
    and the request naming it is answered with 500 and no score. *)
Lemma cold_start_request_fails :
  movie_indexer (model Demo.demo) 999 = None /\
  value (hybrid_predict 1 999 ["Comedy"]%string Demo.demo) = Raise unseen_label /\
  value (wsgi_app (post_recommend 1 [1; 999] [["Comedy"]; ["Comedy"]]%string)
           Demo.demo) =
    Ok {| status := 500; payload := Html "Internal Server Error" |}.
Proof. repeat split. Qed.

(** C4, amended. For a pair (userId, movieId) without a collaborative
    prediction, [hybrid_predict] raises and returns no score; a
    POST /recommend request that pairs such a movie with a genre list is
    answered with status 500 and no ranked list, and the globals are left
    as they were. *)
Theorem cold_start_raises (g : Globals) (userId : Z) (movieIds : list Z)
  (genres_lists : list (list string)) (movieId : Z) (genres_list : list string) :
  In (movieId, genres_list) (zip movieIds genres_lists) ->
  cold_start g userId movieId ->
  let answer := wsgi_app (post_recommend userId movieIds genres_lists) g in
  (exists e, value (hybrid_predict userId movieId genres_list g) = Raise e) /\
  value answer = Ok {| status := 500; payload := Html "Internal Server Error" |} /\
  globals_after answer = g.
Proof.
  intros Hin Hcold. cbn zeta.
  pose proof (cold_start_predict_raises g userId movieId genres_list Hcold)
    as Hraise.
  split; [exact Hraise|]. split; [|apply wsgi_recommend_globals].
  rewrite wsgi_recommend_value.
  destruct (score_each_raise g userId _ [] _ _ Hin Hraise) as [e ->].
  reflexivity.
Qed.

Lemma cold_start_raises_witness :
  let answer :=
    wsgi_app (post_recommend 2 [1; 3] [["Comedy"]; ["Romance"]]%string) Demo.demo in
  (exists e, value (hybrid_predict 2 3 ["Romance"]%string Demo.demo) = Raise e) /\
  value answer = Ok {| status := 500; payload := Html "Internal Server Error" |} /\
  globals_after answer = Demo.demo.
Proof.
  apply (cold_start_raises Demo.demo 2 [1; 3] [["Comedy"]; ["Romance"]]%string
           3 ["Romance"]%string).
  - right. left. reflexivity.
  - reflexivity.
Defined.

(* ================================================================= *)
(** ** Malformed requests *)

Lemma zip_shorter {A B : Type} (l : list A) (l' : list B) :
  let n := Nat.min (List.length l) (List.length l') in
  zip (firstn n l) (firstn n l') = zip l l'.
Proof.
  cbn zeta. unfold zip. rewrite <- combine_firstn, <- length_combine.
  apply firstn_all.
Qed.

Lemma recommend_post_zip (g : Globals) (userId : Z) (movieIds : list Z)
  (genres_lists : list (list string)) :
  recommend (post_recommend userId movieIds genres_lists) g =
  (recommendations <- score_each userId (zip movieIds genres_lists) [] ;;
   ret (jsonify_recommendations (sorted score true recommendations))) g.
Proof.
  unfold recommend, post_recommend.
  cbn [method json json_userId json_movieIds json_genres_lists getitem].
  unfold bind at 1 2 3. cbn [ret value globals_after events app].
  destruct (bind _ _ g). reflexivity.
Qed.

(** C5, as the claim states it, fails: lists of different lengths are
    answered with status 200 and the entries of the common prefix, and a
    body without [userId] is answered with status 500. *)
Lemma malformed_request_not_client_error :
  (exists ranked,
     value (wsgi_app (post_recommend 1 [1; 3; 6] [["Comedy"]; ["Romance"]]%string)
              Demo.demo) =
       Ok {| status := 200; payload := jsonify_recommendations ranked |} /\
     map rec_movieId ranked = [1; 3]) /\
  value (wsgi_app {| path := "/recommend"; method := POST;
                     json := {| json_userId := None;
                                json_movieIds := Some [1];
                                json_genres_lists := Some [["Comedy"%string]] |} |}
           Demo.demo) =
    Ok {| status := 500; payload := Html "Internal Server Error" |}.
Proof.
  split; [|reflexivity].
  exists [{| rec_movieId := 1; score := (0.7 * 1.0 + 0.3 * 4)%float |};
          {| rec_movieId := 3; score := (0.7 * 0.5 + 0.3 * 3)%float |}].
  split; vm_compute; reflexivity.
Qed.

(** C5, amended. A POST /recommend request whose body lacks a required
    field is answered with status 500; the predictor is not called and the
    globals are left as they were. A request whose [movieIds] and
    [genres_lists] differ in length is not rejected: it is answered as the
    request with both lists cut to the shorter length. *)
Theorem malformed_request_handling (g : Globals) :
  (forall body : RequestJson,
     json_userId body = None \/ json_movieIds body = None
     \/ json_genres_lists body = None ->
     let answer :=
       wsgi_app {| path := "/recommend"; method := POST; json := body |} g in
     value answer = Ok {| status := 500; payload := Html "Internal Server Error" |}
     /\ events answer = []
     /\ globals_after answer = g) /\
  (forall (userId : Z) (movieIds : list Z) (genres_lists : list (list string)),
     let n := Nat.min (List.length movieIds) (List.length genres_lists) in
     wsgi_app (post_recommend userId movieIds genres_lists) g =
     wsgi_app (post_recommend userId (firstn n movieIds) (firstn n genres_lists)) g).
Proof.
  split.
  - intros [[u|] [mids|] [gls|]] [H|[H|H]]; try discriminate H;
      repeat split.
  - intros userId movieIds genres_lists n.
    change (wsgi_app (post_recommend userId movieIds genres_lists) g)
      with (let o := recommend (post_recommend userId movieIds genres_lists) g in
            {| value :=
                 Ok match value o with
                    | Ok b => {| status := 200; payload := b |}
                    | Raise _ =>
                        {| status := 500; payload := Html "Internal Server Error" |}
                    end;
               globals_after := globals_after o;
               events := events o |}).
    change (wsgi_app (post_recommend userId (firstn n movieIds)
                        (firstn n genres_lists)) g)
      with (let o := recommend (post_recommend userId (firstn n movieIds)
                                  (firstn n genres_lists)) g in
            {| value :=
                 Ok match value o with
                    | Ok b => {| status := 200; payload := b |}
                    | Raise _ =>
                        {| status := 500; payload := Html "Internal Server Error" |}
                    end;
               globals_after := globals_after o;
               events := events o |}).
    rewrite !recommend_post_zip. subst n.
    now rewrite (zip_shorter movieIds genres_lists).
Qed.

Lemma malformed_request_handling_witness :
  let body := {| json_userId := Some 1; json_movieIds := None;
                 json_genres_lists := Some [["Comedy"%string]] |} in
  let answer :=
    wsgi_app {| path := "/recommend"; method := POST; json := body |} Demo.demo in
  value answer = Ok {| status := 500; payload := Html "Internal Server Error" |}
  /\ events answer = []
  /\ globals_after answer = Demo.demo.
Proof.
  apply (proj1 (malformed_request_handling Demo.demo)
           {| json_userId := Some 1; json_movieIds := None;
              json_genres_lists := Some [["Comedy"%string]] |}).
  right. left. reflexivity.
Defined.

(* ================================================================= *)
(** ** Shutdown and the serving loop *)

Lemma wsgi_shutdown (g : Globals) (body : RequestJson) :
  let answer :=
    wsgi_app {| path := "/shutdown"; method := POST; json := body |} g in
  value answer = Ok shutting_down /\
  globals_after answer = set_server_active false g.
Proof. split; reflexivity. Qed.

(** C10. Every POST /shutdown, whatever the flag was, sets [server_active]
    to False and returns the same status body; a second call leaves the
    globals as the first call left them. *)
Theorem shutdown_idempotent (g : Globals) (body1 body2 : RequestJson) :
  let first_call :=
    wsgi_app {| path := "/shutdown"; method := POST; json := body1 |} g in
  let second_call :=
    wsgi_app {| path := "/shutdown"; method := POST; json := body2 |}
      (globals_after first_call) in
  server_active (globals_after first_call) = false /\
  value first_call = Ok shutting_down /\
  value second_call = Ok shutting_down /\
  globals_after second_call = globals_after first_call.
Proof. repeat split. Qed.

(** Flask answers every request. *)
Lemma wsgi_app_answers (r : Request) (g : Globals) :
  exists resp, value (wsgi_app r g) = Ok resp.
Proof.
  unfold wsgi_app. destruct (route r); cbn; eauto.
Qed.

Lemma step_exit_only_at_test (s s' : Server) :
  step s s' -> loop s' = Exited ->
  loop s = Exited \/ (loop s = Testing /\ server_active (globals s) = false).
Proof.
  intros Hstep. destruct Hstep; cbn; intros Hloop; try discriminate; auto.
Qed.

Lemma step_after_exit (s s' : Server) :
  step s s' -> loop s = Exited ->
  loop s' = Exited /\ Permutation (accepted s') (accepted s).
Proof.
  intros Hstep Hexit.
  destruct Hstep as [s r|s Hl _|s Hl _|s r rest Hl _|s before after r resp Hin _];
    try congruence; unfold accepted; cbn; split; try assumption; try reflexivity.
  rewrite Hin, map_app, <- app_assoc. cbn.
  apply Permutation_app_head. apply Permutation_middle.
Qed.

Lemma steps_after_exit (s s' : Server) :
  steps s s' -> loop s = Exited ->
  loop s' = Exited /\ Permutation (accepted s') (accepted s).
Proof.
  induction 1 as [s|s s1 s2 Hstep _ IH]; intros Hexit; [now split|].
  destruct (step_after_exit _ _ Hstep Hexit) as [Hexit1 Hperm1].
  destruct (IH Hexit1) as [Hexit2 Hperm2].
  split; [assumption|]. now rewrite Hperm2.
Qed.

(** The handler threads of the requests in flight can all run to their
    response, in any state of the loop. *)
Lemma in_flight_answered (s : Server) :
  exists s',
    steps s s' /\ in_flight s' = [] /\ loop s' = loop s /\
    backlog s' = backlog s /\
    map fst (answered s') = map fst (answered s) ++ in_flight s.
Proof.
  remember (in_flight s) as l eqn:Hl. revert s Hl.
  induction l as [|r l IH]; intros s Hl.
  - exists s. repeat split; [apply rt1n_refl|now symmetry|now rewrite app_nil_r].
  - destruct (wsgi_app_answers r (globals s)) as [resp Hresp].
    pose proof (step_handle s [] l r resp (eq_sym Hl) Hresp) as Hstep.
    match type of Hstep with
    | step _ ?s1 =>
        destruct (IH s1 eq_refl) as (s' & Hsteps & Hnone & Hloop & Hback & Hans)
    end.
    exists s'. cbn in *. repeat split; try assumption.
    + eapply rt1n_trans; eassumption.
    + rewrite Hans, map_app, <- app_assoc. reflexivity.
Qed.

(** C8, as the claim states it, fails: the loop can exit while a request
    accepted earlier is still in flight. A /recommend request is accepted,
    then /shutdown is accepted and handled; the loop finds the flag False
    and exits with the /recommend request unanswered. *)
Lemma loop_exits_with_request_in_flight :
  let r := post_recommend 1 Demo.demo_movieIds Demo.demo_genres_lists in
  exists s,
    steps (run_flask Demo.demo) s /\
    loop s = Exited /\
    in_flight s = [r] /\
    answered s = [(post_shutdown, shutting_down)].
Proof.
  cbn zeta.
  set (r := post_recommend 1 Demo.demo_movieIds Demo.demo_genres_lists).
  eexists. split.
  - eapply rt1n_trans; [apply (step_connect _ r)|].
    eapply rt1n_trans; [apply step_test_true; reflexivity|].
    eapply rt1n_trans; [apply (step_accept _ r []); reflexivity|].
    eapply rt1n_trans; [apply step_test_true; reflexivity|].
    eapply rt1n_trans; [apply (step_connect _ post_shutdown)|].
    eapply rt1n_trans; [apply (step_accept _ post_shutdown []); reflexivity|].
    eapply rt1n_trans;
      [apply (step_handle _ [r] [] post_shutdown shutting_down); reflexivity|].
    eapply rt1n_trans; [apply step_test_false; reflexivity|].
    apply rt1n_refl.
  - repeat split.
Qed.

(** C8, amended. POST /shutdown is answered with status 200 and the JSON
    object [{"status": "Server shutting down..."}] and sets [server_active]
    to False. The serving loop tests the flag only between calls of
    [handle_request] and leaves only from that test, on a False flag. Once
    the loop has exited no further request is accepted. Requests are handled
    on their own threads: a request accepted earlier can still be in flight
    when the loop exits, and whatever the loop does, the handlers of the
    requests in flight can run on and answer each of them. *)
Theorem shutdown_and_serving_loop :
  (forall (g : Globals) (body : RequestJson),
     let answer :=
       wsgi_app {| path := "/shutdown"; method := POST; json := body |} g in
     value answer = Ok shutting_down /\
     server_active (globals_after answer) = false) /\
  (forall s s' : Server,
     step s s' -> loop s' = Exited ->
     loop s = Exited \/ (loop s = Testing /\ server_active (globals s) = false)) /\
  (forall s s' : Server,
     steps s s' -> loop s = Exited ->
     loop s' = Exited /\ Permutation (accepted s') (accepted s)) /\
  (forall s : Server,
     exists s',
       steps s s' /\ in_flight s' = [] /\ loop s' = loop s /\
       map fst (answered s') = map fst (answered s) ++ in_flight s).
Proof.
  split; [intros g body; split; reflexivity|].
  split; [apply step_exit_only_at_test|].
  split; [apply steps_after_exit|].
  intros s. destruct (in_flight_answered s) as (s' & H1 & H2 & H3 & _ & H5).
    eauto.
Qed.

Lemma shutdown_and_serving_loop_witness :
  let s := {| globals := set_server_active false Demo.demo; loop := Testing;
              backlog := []; in_flight := [post_shutdown]; answered := [] |} in
  let s' := {| globals := set_server_active false Demo.demo; loop := Exited;
               backlog := []; in_flight := [post_shutdown]; answered := [] |} in
  step s s' /\ loop s' = Exited /\
  (loop s = Exited \/ (loop s = Testing /\ server_active (globals s) = false)).
Proof.
  cbn zeta.
  assert (Hstep :
    step {| globals := set_server_active false Demo.demo; loop := Testing;
            backlog := []; in_flight := [post_shutdown]; answered := [] |}
         {| globals := set_server_active false Demo.demo; loop := Exited;
            backlog := []; in_flight := [post_shutdown]; answered := [] |}).
  { apply (step_test_false
             {| globals := set_server_active false Demo.demo; loop := Testing;
                backlog := []; in_flight := [post_shutdown]; answered := [] |});
      reflexivity. }
  split; [exact Hstep|]. split; [reflexivity|].
  apply (proj1 (proj2 shutdown_and_serving_loop) _ _ Hstep). reflexivity.
Defined.

(* ================================================================= *)
(** ** More on the order of scores *)

Lemma SFleb_trans (x y z : spec_float) :
  SFleb x y = true -> SFleb y z = true -> SFleb x z = true.
Proof.
  unfold SFleb, SFcompare.
  destruct x as [[]|[]| |[] mx ex], y as [[]|[]| |[] my ey],
    z as [[]|[]| |[] mz ez]; try easy;
    change (Pos.compare_cont Eq ?a ?b) with (Pos.compare a b);
    repeat match goal with
           | |- context [Z.compare ?a ?b] => destruct (Z.compare_spec a b)
           | |- context [Pos.compare ?a ?b] => destruct (Pos.compare_spec a b)
           end; cbn; try easy; intros _ _; exfalso; subst; lia.
Qed.

Lemma leb_trans (x y z : float) :
  (x <=? y)%float = true -> (y <=? z)%float = true -> (x <=? z)%float = true.
Proof. rewrite !leb_spec. apply SFleb_trans. Qed.

Lemma leb_not_ltb (x y : float) :
  (x <=? y)%float = true -> (y <? x)%float = false.
Proof.
  rewrite leb_spec, ltb_spec. unfold SFleb, SFltb.
  rewrite (FloatOrder.SFcompare_antisym (Prim2SF x) (Prim2SF y)).
  destruct (SFcompare (Prim2SF x) (Prim2SF y)) as [[]|]; cbn; easy.
Qed.

Section SortingMore.
Context {A : Type} (key : A -> float).

Lemma key_ge_transitive : Relations_1.Transitive (key_ge key).
Proof.
  intros a b c Hab Hbc. unfold key_ge in *. eapply leb_trans; eassumption.
Qed.

Lemma descending_rev (l : list A) :
  Sorted (key_ge key) l -> Sorted (key_le key) (rev l).
Proof.
  induction 1 as [|a l Hs IH Hhd]; cbn; [constructor|].
  destruct l as [|b l]; cbn in *; [repeat constructor|].
  rewrite <- app_assoc. cbn. apply Sorted_snoc; [assumption|].
  now inversion Hhd.
Qed.

(** Sorting a list that is in ascending order of key leaves it as it is. *)
Lemma stable_sort_ascending_id (l : list A) :
  Sorted (key_le key) l -> stable_sort key l = l.
Proof.
  induction 1 as [|x l Hs IH Hhd]; cbn; [reflexivity|].
  rewrite IH. destruct Hhd as [|y l Hxy]; cbn; [reflexivity|].
  now rewrite (leb_not_ltb _ _ Hxy).
Qed.

Lemma sorted_reverse_descending_id (l : list A) :
  Sorted (key_ge key) l -> sorted key true l = l.
Proof.
  intros Hs. cbn. rewrite (stable_sort_ascending_id _ (descending_rev _ Hs)).
  apply rev_involutive.
Qed.
End SortingMore.

(* ================================================================= *)
(** ** More on the ranked response *)

(** X1. When every prediction succeeds with a score that is a number, every
    entry of the response scores at least as much as every entry after it,
    so the first entry has the highest score of the request. *)
Theorem recommend_best_first (g : Globals) (userId : Z)
  (movieIds : list Z) (genres_lists : list (list string))
  (recommendations : list Recommendation) :
  value (score_each userId (zip movieIds genres_lists) [] g)
    = Ok recommendations ->
  Forall (fun r => is_number (score r)) recommendations ->
  exists ranked,
    value (wsgi_app (post_recommend userId movieIds genres_lists) g) =
      Ok {| status := 200; payload := jsonify_recommendations ranked |} /\
    StronglySorted (key_ge score) ranked /\
    forall top rest, ranked = top :: rest ->
      forall r, In r recommendations -> (score r <=? score top)%float = true.
Proof.
  intros Hloop Hnum. exists (sorted score true recommendations).
  rewrite wsgi_recommend_value, Hloop. split; [reflexivity|].
  assert (Hstrong : StronglySorted (key_ge score) (sorted score true recommendations)).
  { apply Sorted_StronglySorted; [apply key_ge_transitive|].
    now apply sorted_reverse_descending. }
  split; [exact Hstrong|].
  intros top rest Heq r Hin.
  assert (Hin' : In r (sorted score true recommendations)).
  { eapply Permutation_in; [symmetry; apply sorted_perm|exact Hin]. }
  rewrite Heq in Hstrong, Hin'. inversion Hstrong as [|? ? _ Hall]; subst.
  destruct Hin' as [<-|Hin'].
  - assert (Hnan : is_number (score top)).
    { rewrite Forall_forall in Hnum. now apply Hnum. }
    unfold is_number in Hnan. rewrite FloatOrder.is_nan_spec in Hnan.
    rewrite leb_spec. unfold SFleb.
    destruct (Prim2SF (score top)) as [[]|[]| |[] m e]; cbn in *;
      try discriminate; try reflexivity;
      rewrite Z.compare_refl, Pos.compare_cont_refl; reflexivity.
  - rewrite Forall_forall in Hall. now apply Hall.
Qed.

Lemma recommend_best_first_witness :
  exists ranked,
    value (wsgi_app (post_recommend 1 Demo.demo_movieIds Demo.demo_genres_lists)
             Demo.demo) =
      Ok {| status := 200; payload := jsonify_recommendations ranked |} /\
    StronglySorted (key_ge score) ranked /\
    forall top rest, ranked = top :: rest ->
      forall r, In r Demo.demo_recommendations ->
                (score r <=? score top)%float = true.
Proof.
  apply (recommend_best_first Demo.demo 1 Demo.demo_movieIds
           Demo.demo_genres_lists Demo.demo_recommendations).
  - vm_compute. reflexivity.
  - repeat constructor.
Defined.

(** X2. A request whose entries already come in descending order of score
    (entries of equal score included) is answered in the order of the
    request. *)
Theorem recommend_keeps_descending_request (g : Globals) (userId : Z)
  (movieIds : list Z) (genres_lists : list (list string))
  (recommendations : list Recommendation) :
  value (score_each userId (zip movieIds genres_lists) [] g)
    = Ok recommendations ->
  descending recommendations ->
  value (wsgi_app (post_recommend userId movieIds genres_lists) g) =
    Ok {| status := 200; payload := jsonify_recommendations recommendations |}.
Proof.
  intros Hloop Hdesc. rewrite wsgi_recommend_value, Hloop.
  now rewrite (sorted_reverse_descending_id score _ Hdesc).
Qed.

Lemma recommend_keeps_descending_request_witness :
  value (wsgi_app (post_recommend 1 [1; 50; 3; 6]
                     [["Comedy"]; ["Crime"]; ["Romance"]; ["Action"]]%string)
           Demo.demo) =
    Ok {| status := 200;
          payload := jsonify_recommendations
            [{| rec_movieId := 1; score := (0.7 * 1.0 + 0.3 * 4)%float |};
             {| rec_movieId := 50; score := (0.7 * 0.875 + 0.3 * 3)%float |};
             {| rec_movieId := 3; score := (0.7 * 0.5 + 0.3 * 3)%float |};
             {| rec_movieId := 6; score := (0.7 * 0.5 + 0.3 * 3)%float |}] |}.
Proof.
  apply (recommend_keeps_descending_request Demo.demo 1 [1; 50; 3; 6]
           [["Comedy"]; ["Crime"]; ["Romance"]; ["Action"]]%string).
  - vm_compute. reflexivity.
  - repeat constructor; vm_compute; reflexivity.
Defined.

(* ================================================================= *)
(** ** The calls of the predictor *)

Section LoopCalls.
Variable g : Globals.
Variable userId : Z.

Lemma score_each_events_ok (pairs : list (Z * list string))
  (acc : list Recommendation) :
  Forall (predicted g userId) pairs ->
  events (score_each userId pairs acc g) = map (call_of userId) pairs.
Proof.
  intros Hall. revert acc.
  induction Hall as [|[m gl] rest [s Hs] _ IH]; intros acc;
    cbn [score_each]; [reflexivity|].
  cbn [fst snd] in Hs.
  rewrite bind_events, hybrid_predict_globals, hybrid_predict_events, Hs, IH.
  reflexivity.
Qed.

Lemma score_each_events_raise (before after : list (Z * list string))
  (p : Z * list string) (acc : list Recommendation) :
  Forall (predicted g userId) before ->
  (exists e, value (hybrid_predict userId (fst p) (snd p) g) = Raise e) ->
  events (score_each userId (before ++ p :: after) acc g)
    = map (call_of userId) (before ++ [p]) /\
  exists e, value (score_each userId (before ++ p :: after) acc g) = Raise e.
Proof.
  intros Hall [e He]. revert acc.
  induction Hall as [|[m gl] rest [s Hs] _ IH]; intros acc.
  - destruct p as [m gl]. cbn [app score_each fst snd] in *.
    rewrite bind_events, bind_value, hybrid_predict_events, He.
    split; [reflexivity|eauto].
  - cbn [fst snd] in Hs. cbn [app score_each].
    rewrite bind_events, bind_value, hybrid_predict_globals,
      hybrid_predict_events, Hs.
    destruct (IH (acc ++ [{| rec_movieId := m; score := s |}])) as [-> Hraise].
    split; [reflexivity|exact Hraise].
Qed.

Lemma score_each_predicted (pairs : list (Z * list string))
  (acc out : list Recommendation) :
  value (score_each userId pairs acc g) = Ok out ->
  Forall (predicted g userId) pairs.
Proof.
  intros Hloop. destruct (score_each_ok _ _ _ _ _ Hloop) as (recs & _ & _ & Hall).
  clear Hloop. induction Hall as [|p r ps rs Hp _ IH]; constructor;
    [now exists (score r)|assumption].
Qed.

Variables (movieIds : list Z) (genres_lists : list (list string)).

Lemma recommend_post_events :
  events (recommend (post_recommend userId movieIds genres_lists) g) =
  events (score_each userId (zip movieIds genres_lists) [] g).
Proof.
  rewrite recommend_post_zip, bind_events.
  destruct (value (score_each _ _ _ g)); [|reflexivity].
  cbn [ret events]. apply app_nil_r.
Qed.

Lemma wsgi_recommend_events :
  events (wsgi_app (post_recommend userId movieIds genres_lists) g) =
  events (score_each userId (zip movieIds genres_lists) [] g).
Proof.
  change (events (wsgi_app (post_recommend userId movieIds genres_lists) g))
    with (events (recommend (post_recommend userId movieIds genres_lists) g)).
  apply recommend_post_events.
Qed.
End LoopCalls.

(** X3. When every prediction of a POST /recommend request succeeds, the
    predictor is called once per pair of [zip(movieIds, genres_lists)], in
    the order of the request, and nothing else happens. *)
Theorem recommend_calls_in_request_order (g : Globals) (userId : Z)
  (movieIds : list Z) (genres_lists : list (list string)) :
  Forall (predicted g userId) (zip movieIds genres_lists) ->
  events (wsgi_app (post_recommend userId movieIds genres_lists) g) =
  map (call_of userId) (zip movieIds genres_lists).
Proof.
  intros Hall. rewrite wsgi_recommend_events.
  now apply score_each_events_ok.
Qed.

Lemma recommend_calls_in_request_order_witness :
  events (wsgi_app (post_recommend 1 [3; 1] [["Romance"]; ["Comedy"]]%string)
            Demo.demo) =
  [CallHybridPredict 1 3 ["Romance"%string];
   CallHybridPredict 1 1 ["Comedy"%string]].
Proof.
  apply (recommend_calls_in_request_order Demo.demo 1 [3; 1]
           [["Romance"]; ["Comedy"]]%string).
  repeat constructor; eexists; vm_compute; reflexivity.
Defined.

(** X4. The first prediction that raises ends the loop of [recommend]: the
    pairs before it and the failing pair are the only ones the predictor is
    called for, and the request is answered with status 500. *)
Theorem recommend_stops_at_first_failure (g : Globals) (userId : Z)
  (movieIds : list Z) (genres_lists : list (list string))
  (before after : list (Z * list string)) (p : Z * list string) :
  zip movieIds genres_lists = before ++ p :: after ->
  Forall (predicted g userId) before ->
  (exists e, value (hybrid_predict userId (fst p) (snd p) g) = Raise e) ->
  let answer := wsgi_app (post_recommend userId movieIds genres_lists) g in
  events answer = map (call_of userId) (before ++ [p]) /\
  value answer = Ok {| status := 500; payload := Html "Internal Server Error" |}.
Proof.
  intros Hzip Hall Hraise. cbn zeta.
  rewrite wsgi_recommend_events, wsgi_recommend_value, Hzip.
  destruct (score_each_events_raise g userId before after p [] Hall Hraise)
    as [-> [e ->]].
  split; reflexivity.
Qed.

Lemma recommend_stops_at_first_failure_witness :
  let answer :=
    wsgi_app (post_recommend 1 [1; 999; 3]
                [["Comedy"]; ["Drama"]; ["Romance"]]%string) Demo.demo in
  events answer =
    [CallHybridPredict 1 1 ["Comedy"%string];
     CallHybridPredict 1 999 ["Drama"%string]] /\
  value answer = Ok {| status := 500; payload := Html "Internal Server Error" |}.
Proof.
  apply (recommend_stops_at_first_failure Demo.demo 1 [1; 999; 3]
           [["Comedy"]; ["Drama"]; ["Romance"]]%string
           [(1, ["Comedy"%string])] [(3, ["Romance"%string])]
           (999, ["Drama"%string])).
  - reflexivity.
  - repeat constructor; eexists; vm_compute; reflexivity.
  - eexists; vm_compute; reflexivity.
Defined.

(* ================================================================= *)
(** ** The answer to POST /recommend *)

Lemma zip_fst_firstn {A B : Type} (l : list A) (l' : list B) :
  map fst (zip l l') = firstn (Nat.min (List.length l) (List.length l')) l.
Proof.
  unfold zip. revert l'.
  induction l as [|a l IH]; intros [|b l']; cbn; try reflexivity.
  now rewrite IH.
Qed.

Lemma wsgi_recommend_missing_field (g : Globals) (body : RequestJson) :
  json_userId body = None \/ json_movieIds body = None
  \/ json_genres_lists body = None ->
  value (wsgi_app (post_recommend_body body) g) =
    Ok {| status := 500; payload := Html "Internal Server Error" |}.
Proof.
  destruct body as [[u|] [mids|] [gls|]]; intros [H|[H|H]];
    try discriminate H; reflexivity.
Qed.

(** X5. A POST /recommend request whose body is a JSON object, with fields
    of the documented types where present, is answered with status 200 and
    a ranked list exactly when the body has the three fields and the
    prediction of every pair of [zip(movieIds, genres_lists)] succeeds;
    every other request of that kind is answered with status 500. *)
Theorem recommend_status (g : Globals) (body : RequestJson) :
  let answer := wsgi_app (post_recommend_body body) g in
  let well_formed :=
    exists userId movieIds genres_lists,
      body = {| json_userId := Some userId;
                json_movieIds := Some movieIds;
                json_genres_lists := Some genres_lists |} /\
      Forall (predicted g userId) (zip movieIds genres_lists) in
  (well_formed /\
   exists ranked,
     value answer =
       Ok {| status := 200; payload := jsonify_recommendations ranked |}) \/
  (~ well_formed /\
   value answer =
     Ok {| status := 500; payload := Html "Internal Server Error" |}).
Proof.
  cbn zeta. destruct body as [[u|] [mids|] [gls|]];
    try (right; split;
         [intros (u' & m' & g' & [=] & _)
         |apply wsgi_recommend_missing_field; cbn; auto]; fail).
  change (post_recommend_body _) with (post_recommend u mids gls).
  rewrite wsgi_recommend_value.
  destruct (value (score_each u (zip mids gls) [] g)) as [recs|e] eqn:Hloop.
  - left. split; [|eauto].
    exists u, mids, gls. split; [reflexivity|].
    eapply score_each_predicted; eassumption.
  - right. split; [|reflexivity].
    intros (u' & m' & g' & [= <- <- <-] & Hall).
    destruct (score_each_total g u _ [] Hall) as [out Hout]. congruence.
Qed.

(** X6. When every prediction of the paired items succeeds, the response
    has as many entries as the shorter of [movieIds] and [genres_lists],
    and their movieIds are the first movieIds of the request, up to that
    length: a movieId beyond the shorter list is never scored. *)
Theorem recommend_shorter_list (g : Globals) (userId : Z)
  (movieIds : list Z) (genres_lists : list (list string)) :
  Forall (predicted g userId) (zip movieIds genres_lists) ->
  let n := Nat.min (List.length movieIds) (List.length genres_lists) in
  exists ranked,
    value (wsgi_app (post_recommend userId movieIds genres_lists) g) =
      Ok {| status := 200; payload := jsonify_recommendations ranked |} /\
    List.length ranked = n /\
    Permutation (map rec_movieId ranked) (firstn n movieIds).
Proof.
  intros Hall n.
  destruct (score_each_total g userId _ [] Hall) as [recs Hloop].
  exists (sorted score true recs). rewrite wsgi_recommend_value, Hloop.
  destruct (score_each_ok _ _ _ _ _ Hloop) as (recs' & Heq & Hids & _).
  cbn in Heq. subst recs'. rewrite zip_fst_firstn in Hids. fold n in Hids.
  assert (Hperm : Permutation (map rec_movieId (sorted score true recs))
                    (firstn n movieIds)).
  { rewrite <- Hids. apply Permutation_map, sorted_perm. }
  repeat split; [|exact Hperm].
  rewrite <- (length_map rec_movieId), (Permutation_length Hperm).
  rewrite length_firstn. subst n. lia.
Qed.

Lemma recommend_shorter_list_witness :
  exists ranked,
    value (wsgi_app (post_recommend 1 [3; 1; 6] [["Romance"]; ["Comedy"]]%string)
             Demo.demo) =
      Ok {| status := 200; payload := jsonify_recommendations ranked |} /\
    List.length ranked = 2%nat /\
    Permutation (map rec_movieId ranked) [3; 1].
Proof.
  apply (recommend_shorter_list Demo.demo 1 [3; 1; 6]
           [["Romance"]; ["Comedy"]]%string).
  repeat constructor; eexists; vm_compute; reflexivity.
Defined.

Lemma jsonify_recommendations_inj (l l' : list Recommendation) :
  jsonify_recommendations l = jsonify_recommendations l' -> l = l'.
Proof.
  unfold jsonify_recommendations. intros [= H]. revert l' H.
  induction l as [|[m s] l IH]; intros [|[m' s'] l'] H; cbn in H;
    try discriminate H; [reflexivity|].
  injection H as -> -> H. f_equal. now apply IH.
Qed.

(** X7. Every entry of a ranked response carries the hybrid score of its
    own pair: its movieId is paired in the request with a genre list for
    which [hybrid_predict] returns the entry's score. *)
Theorem recommend_entries_scored (g : Globals) (userId : Z)
  (movieIds : list Z) (genres_lists : list (list string))
  (ranked : list Recommendation) :
  value (wsgi_app (post_recommend userId movieIds genres_lists) g) =
    Ok {| status := 200; payload := jsonify_recommendations ranked |} ->
  Forall (fun r =>
            exists genres_list,
              In (rec_movieId r, genres_list) (zip movieIds genres_lists) /\
              value (hybrid_predict userId (rec_movieId r) genres_list g)
                = Ok (score r))
         ranked.
Proof.
  rewrite wsgi_recommend_value.
  destruct (value (score_each userId (zip movieIds genres_lists) [] g))
    as [recs|e] eqn:Hloop; [|discriminate].
  intros Hjson. assert (Hranked : sorted score true recs = ranked).
  { apply jsonify_recommendations_inj. congruence. }
  subst ranked.
  destruct (score_each_ok _ _ _ _ _ Hloop) as (recs' & Heq & Hids & Hall).
  cbn in Heq. subst recs'.
  eapply Permutation_Forall; [symmetry; apply sorted_perm|].
  clear Hloop Hjson. revert Hids Hall. generalize (zip movieIds genres_lists).
  intros pairs Hids Hall.
  induction Hall as [|[m gl] r ps rs Hp _ IH]; [constructor|].
  cbn in Hids. injection Hids as Hid Hids. cbn [fst snd] in Hp.
  constructor.
  - exists gl. rewrite Hid. split; [now left|exact Hp].
  - eapply Forall_impl; [|apply IH; exact Hids].
    intros r' (gl' & Hin & Hr'). exists gl'. split; [now right|exact Hr'].
Qed.

Lemma recommend_entries_scored_witness :
  Forall (fun r =>
            exists genres_list,
              In (rec_movieId r, genres_list)
                 (zip [3; 1] [["Romance"]; ["Comedy"]]%string) /\
              value (hybrid_predict 1 (rec_movieId r) genres_list Demo.demo)
                = Ok (score r))
         [{| rec_movieId := 1; score := (0.7 * 1.0 + 0.3 * 4)%float |};
          {| rec_movieId := 3; score := (0.7 * 0.5 + 0.3 * 3)%float |}].
Proof.
  apply (recommend_entries_scored Demo.demo 1 [3; 1]
           [["Romance"]; ["Comedy"]]%string).
  vm_compute. reflexivity.
Defined.

(* ================================================================= *)
(** ** What a request does to the globals *)

Lemma recommend_globals (request : Request) (g : Globals) :
  globals_after (recommend request g) = g.
Proof.
  destruct request as [p [|] [[u|] [mids|] [gls|]]]; try reflexivity.
  apply (recommend_post_globals g u mids gls).
Qed.

Lemma hybrid_predict_flag (g : Globals) (b : bool) (userId movieId : Z)
  (genres_list : list string) :
  value (hybrid_predict userId movieId genres_list (set_server_active b g)) =
  value (hybrid_predict userId movieId genres_list g).
Proof. rewrite !hybrid_predict_value. reflexivity. Qed.

Lemma score_each_flag (g : Globals) (b : bool) (userId : Z)
  (pairs : list (Z * list string)) (acc : list Recommendation) :
  value (score_each userId pairs acc (set_server_active b g)) =
  value (score_each userId pairs acc g).
Proof.
  revert acc. induction pairs as [|[m gl] rest IH]; intros acc;
    cbn [score_each]; [reflexivity|].
  rewrite !bind_value, !hybrid_predict_globals, hybrid_predict_flag.
  destruct (value (hybrid_predict userId m gl g)); [apply IH|reflexivity].
Qed.

Lemma recommend_flag (request : Request) (g : Globals) (b : bool) :
  value (recommend request (set_server_active b g)) =
  value (recommend request g).
Proof.
  destruct request as [p [|] [[u|] [mids|] [gls|]]]; try reflexivity.
  change {| path := p; method := POST;
            json := {| json_userId := Some u; json_movieIds := Some mids;
                       json_genres_lists := Some gls |} |}
    with {| path := p; method := method (post_recommend u mids gls);
            json := json (post_recommend u mids gls) |}.
  unfold recommend. cbn [method json post_recommend json_userId json_movieIds
    json_genres_lists getitem].
  repeat (rewrite !bind_value; cbn [ret value globals_after]).
  rewrite score_each_flag.
  destruct (value (score_each u (zip mids gls) [] g)); reflexivity.
Qed.

Lemma only_post_shutdown_assigns_eq (request : Request) (g : Globals) :
  globals_after (wsgi_app request g) =
  if is_post_shutdown request then set_server_active false g else g.
Proof.
  unfold wsgi_app, route, is_post_shutdown.
  destruct (String.eqb_spec (path request) "/") as [Hp|_].
  { rewrite Hp. destruct (method request); reflexivity. }
  destruct (String.eqb_spec (path request) "/recommend") as [Hp|_].
  { rewrite Hp. cbn. apply recommend_globals. }
  destruct (path request =? "/shutdown")%string;
    destruct (method request); reflexivity.
Qed.

Lemma is_post_shutdown_spec (r : Request) :
  is_post_shutdown r = true -> path r = "/shutdown"%string /\ method r = POST.
Proof.
  unfold is_post_shutdown. intros H. apply andb_prop in H as [Hp Hm].
  apply String.eqb_eq in Hp. destruct (method r); [discriminate|auto].
Qed.

(** X8. Only a POST to /shutdown changes the globals, and it changes
    [server_active] alone: every other request, whatever its path, method
    and body and whether or not its view raises, leaves the globals as they
    were, and no request changes the fitted models. *)
Theorem only_post_shutdown_assigns (request : Request) (g : Globals) :
  let after := globals_after (wsgi_app request g) in
  same_models g after /\
  (after = g \/
   path request = "/shutdown"%string /\ method request = POST /\
   server_active after = false).
Proof.
  cbn zeta. rewrite only_post_shutdown_assigns_eq.
  destruct (is_post_shutdown request) eqn:Hsd.
  - destruct (is_post_shutdown_spec _ Hsd) as [Hp Hm].
    split; [repeat split|right; auto].
  - split; [repeat split|left; reflexivity].
Qed.

(** X9. A GET request has no effect: it does not call the predictor, it
    starts no thread and it leaves the globals as they were, on every path
    and with every body. *)
Theorem get_has_no_effect (request : Request) (g : Globals) :
  method request = GET ->
  events (wsgi_app request g) = [] /\ globals_after (wsgi_app request g) = g.
Proof.
  intros Hget. unfold wsgi_app, route. rewrite Hget.
  destruct (path request =? "/")%string; [split; reflexivity|].
  destruct (path request =? "/recommend")%string.
  - unfold recommend. rewrite Hget. split; reflexivity.
  - destruct (path request =? "/shutdown")%string; split; reflexivity.
Qed.

Lemma get_has_no_effect_witness :
  let request :=
    {| path := "/recommend"; method := GET;
       json := {| json_userId := Some 1; json_movieIds := Some [1];
                  json_genres_lists := Some [["Comedy"%string]] |} |} in
  events (wsgi_app request Demo.demo) = [] /\
  globals_after (wsgi_app request Demo.demo) = Demo.demo.
Proof.
  apply (get_has_no_effect
           {| path := "/recommend"; method := GET;
              json := {| json_userId := Some 1; json_movieIds := Some [1];
                         json_genres_lists := Some [["Comedy"%string]] |} |}
           Demo.demo).
  reflexivity.
Defined.

Lemma wsgi_app_flag (request : Request) (g : Globals) (b : bool) :
  value (wsgi_app request (set_server_active b g)) =
  value (wsgi_app request g).
Proof.
  unfold wsgi_app, route.
  destruct (path request =? "/")%string;
    [destruct (method request); reflexivity|].
  destruct (path request =? "/recommend")%string.
  - cbn [value]. now rewrite recommend_flag.
  - destruct (path request =? "/shutdown")%string;
      [destruct (method request)|]; reflexivity.
Qed.

(* ================================================================= *)
(** ** Invariants of the serving loop *)

Lemma step_globals (g : Globals) (s s' : Server) :
  step s s' ->
  (exists b, globals s = set_server_active b g) ->
  exists b, globals s' = set_server_active b g.
Proof.
  intros Hstep [b Hb]. destruct Hstep; cbn [globals]; try (now exists b).
  rewrite only_post_shutdown_assigns_eq, Hb.
  destruct (is_post_shutdown r); [now exists false|now exists b].
Qed.

Section Serving.
Variable g : Globals.

Lemma serving_invariant_start : serving_invariant g (run_flask g).
Proof.
  repeat split; cbn; try easy. now exists true.
Qed.

Lemma serving_invariant_step (s s' : Server) :
  step s s' -> serving_invariant g s -> serving_invariant g s'.
Proof.
  intros Hstep (Hg & Hans & Hflag & Hexit).
  pose proof (step_globals g s s' Hstep Hg) as Hg'.
  split; [exact Hg'|]. clear Hg'.
  destruct Hstep as [s r|s Hl Ht|s Hl Hf|s r rest Hl Hb|s before after r resp Hin Hv];
    cbn [globals loop backlog in_flight answered];
    try (repeat split; try assumption; try congruence; fail).
  destruct Hg as [b Hb].
  repeat split.
  - intros r' resp' Hin'. apply in_app_or in Hin' as [Hin'|[[= <- <-]|[]]];
      [now apply Hans|].
    rewrite Hb, wsgi_app_flag in Hv. exact Hv.
  - rewrite only_post_shutdown_assigns_eq.
    destruct (is_post_shutdown r) eqn:Hsd.
    + intros _. exists r, resp. split; [|exact Hsd].
      apply in_or_app. right. now left.
    + intros Hoff. destruct (Hflag Hoff) as (r' & resp' & Hin' & Hsd').
      exists r', resp'. split; [|exact Hsd'].
      apply in_or_app. now left.
  - intros Hl. rewrite only_post_shutdown_assigns_eq.
    destruct (is_post_shutdown r); [reflexivity|now apply Hexit].
Qed.

Lemma serving_invariant_steps (s s' : Server) :
  steps s s' -> serving_invariant g s -> serving_invariant g s'.
Proof.
  induction 1 as [s|s s1 s2 Hstep _ IH]; [easy|].
  intros Hinv. apply IH. eapply serving_invariant_step; eassumption.
Qed.
End Serving.

Lemma accepted_step (s s' : Server) :
  step s s' ->
  (List.length (accepted s) <= List.length (accepted s'))%nat /\
  (loop s = Listening ->
   loop s' = Listening /\ List.length (accepted s') = List.length (accepted s)
   \/ loop s' = Testing /\ List.length (accepted s') = S (List.length (accepted s))).
Proof.
  intros Hstep. unfold accepted.
  destruct Hstep as [s r|s Hl Ht|s Hl Hf|s r rest Hl Hb|s before after r resp Hin Hv];
    cbn [globals loop backlog in_flight answered];
    rewrite ?Hin, ?map_app, ?length_app, ?length_map; cbn [List.length map];
    (split; [lia|]); intros Hlisten; try congruence; try (left; split; [assumption|lia]).
  right. split; [reflexivity|lia].
Qed.

Lemma accepted_steps (s s' : Server) :
  steps s s' -> (List.length (accepted s) <= List.length (accepted s'))%nat.
Proof.
  induction 1 as [s|s s1 s2 Hstep _ IH]; [lia|].
  destruct (accepted_step _ _ Hstep) as [Hle _]. lia.
Qed.

Lemma listening_exit_accepts (s s' : Server) :
  steps s s' -> loop s = Listening -> loop s' = Exited ->
  (List.length (accepted s) < List.length (accepted s'))%nat.
Proof.
  induction 1 as [s|s s1 s2 Hstep Hsteps IH]; intros Hlisten Hexit;
    [congruence|].
  destruct (accepted_step _ _ Hstep) as [_ Hcase].
  destruct (Hcase Hlisten) as [[Hl Heq]|[Hl Heq]].
  - rewrite <- Heq. now apply IH.
  - pose proof (accepted_steps _ _ Hsteps). lia.
Qed.

Lemma demo_exited_reached : steps (run_flask Demo.demo) demo_exited.
Proof.
  eapply rt1n_trans; [apply (step_connect _ post_shutdown)|].
  eapply rt1n_trans; [apply step_test_true; reflexivity|].
  eapply rt1n_trans; [apply (step_accept _ post_shutdown []); reflexivity|].
  eapply rt1n_trans;
    [apply (step_handle _ [] [] post_shutdown shutting_down); reflexivity|].
  eapply rt1n_trans; [apply step_test_false; reflexivity|].
  apply rt1n_refl.
Defined.

(** X10. Whatever the interleaving of the loop and the handler threads, a
    server started from given globals never changes the fitted models, and
    it answers each request as the application answers that request alone
    from the initial globals. *)
Theorem answers_as_served_alone (g : Globals) (s : Server) :
  steps (run_flask g) s ->
  same_models g (globals s) /\
  forall r resp, In (r, resp) (answered s) -> value (wsgi_app r g) = Ok resp.
Proof.
  intros Hsteps.
  destruct (serving_invariant_steps g _ _ Hsteps (serving_invariant_start g))
    as ([b Hb] & Hans & _).
  split; [|exact Hans]. rewrite Hb. repeat split.
Qed.

Lemma answers_as_served_alone_witness :
  same_models Demo.demo (globals demo_exited) /\
  forall r resp, In (r, resp) (answered demo_exited) ->
                 value (wsgi_app r Demo.demo) = Ok resp.
Proof.
  apply (answers_as_served_alone Demo.demo demo_exited).
  exact demo_exited_reached.
Defined.

(** X11. As long as only HTTP requests act on the globals (no [stop_flask]
    from the notebook), the loop of [run_flask] is left only with
    [server_active] False and only after a POST /shutdown request has been
    accepted. *)
Theorem loop_exit_needs_shutdown (g : Globals) (s : Server) :
  steps (run_flask g) s -> loop s = Exited ->
  server_active (globals s) = false /\
  exists r,
    In r (accepted s) /\
    path r = "/shutdown"%string /\ method r = POST.
Proof.
  intros Hsteps Hexit.
  destruct (serving_invariant_steps g _ _ Hsteps (serving_invariant_start g))
    as (_ & _ & Hflag & Hoff).
  specialize (Hoff Hexit). split; [exact Hoff|].
  destruct (Hflag Hoff) as (r & resp & Hin & Hsd).
  exists r. split; [|now apply is_post_shutdown_spec].
  unfold accepted. apply in_or_app. left.
  apply in_map_iff. now exists (r, resp).
Qed.

Lemma loop_exit_needs_shutdown_witness :
  server_active (globals demo_exited) = false /\
  exists r,
    In r (accepted demo_exited) /\
    path r = "/shutdown"%string /\ method r = POST.
Proof.
  apply (loop_exit_needs_shutdown Demo.demo demo_exited).
  - exact demo_exited_reached.
  - reflexivity.
Defined.

(** X12. A loop that waits in [handle_request] does not see the flag: from
    a state in which the loop is waiting for a connection, also one with
    [server_active] already False, the loop is left only after at least one
    more request has been accepted. *)
Theorem listening_loop_waits (s s' : Server) :
  steps s s' -> loop s = Listening -> loop s' = Exited ->
  (List.length (accepted s) < List.length (accepted s'))%nat.
Proof. apply listening_exit_accepts. Qed.

Lemma listening_loop_waits_witness :
  let r := post_recommend 1 [1] [["Comedy"%string]] in
  (List.length (accepted (demo_listening false))
   < List.length (accepted (demo_exited_after r)))%nat.
Proof.
  cbn zeta.
  apply (listening_loop_waits (demo_listening false)
           (demo_exited_after (post_recommend 1 [1] [["Comedy"%string]]))).
  - eapply rt1n_trans; [apply (step_connect _ (post_recommend 1 [1] [["Comedy"%string]]))|].
    eapply rt1n_trans; [apply (step_accept _ (post_recommend 1 [1] [["Comedy"%string]]) []); reflexivity|].
    eapply rt1n_trans; [apply step_test_false; reflexivity|].
    apply rt1n_refl.
  - reflexivity.
  - reflexivity.
Defined.

(** X13. [stop_flask] on a server whose loop waits for a connection clears
    [server_active] and returns nothing, but does not end the loop: the
    loop stays in [handle_request] and is left only after one more request
    has been accepted. *)
Theorem stop_flask_waits_for_connection (thread : Server) :
  loop thread = Listening ->
  exists stopped,
    stop_flask (Some thread) = (None, Some stopped) /\
    server_active (globals stopped) = false /\
    loop stopped = Listening /\
    accepted stopped = accepted thread /\
    forall s', steps stopped s' -> loop s' = Exited ->
               (List.length (accepted thread) < List.length (accepted s'))%nat.
Proof.
  intros Hlisten. unfold stop_flask, is_alive. rewrite Hlisten.
  eexists. split; [reflexivity|].
  split; [reflexivity|]. split; [reflexivity|]. split; [reflexivity|].
  intros s' Hsteps Hexit.
  apply (listening_exit_accepts _ _ Hsteps eq_refl Hexit).
Qed.

Lemma stop_flask_waits_for_connection_witness :
  exists stopped,
    stop_flask (Some (demo_listening true)) = (None, Some stopped) /\
    server_active (globals stopped) = false /\
    loop stopped = Listening /\
    accepted stopped = accepted (demo_listening true) /\
    forall s', steps stopped s' -> loop s' = Exited ->
               (List.length (accepted (demo_listening true))
                < List.length (accepted s'))%nat.
Proof.
  apply (stop_flask_waits_for_connection (demo_listening true)). reflexivity.
Defined.

(* ================================================================= *)
(** ** When the predictor returns *)

(** X14. [hybrid_predict] returns a score exactly when the genre list is
    not empty and the pair is not a cold-start pair. With an empty genre
    list it raises the error of [createDataFrame]; for a known pair whose
    row the collaborative model drops it raises [IndexError]. *)
Theorem hybrid_predict_returns_or_raises (g : Globals) (userId movieId : Z)
  (genres_list : list string) :
  ((exists s, value (hybrid_predict userId movieId genres_list g) = Ok s)
   <-> genres_list <> [] /\ ~ cold_start g userId movieId) /\
  (genres_list = [] ->
   value (hybrid_predict userId movieId genres_list g)
     = Raise cannot_determine_type) /\
  (forall ui mi,
     genres_list <> [] ->
     user_indexer (model g) userId = Some ui ->
     movie_indexer (model g) movieId = Some mi ->
     is_nan (als_predict (collaborative_model g) ui mi) = true ->
     value (hybrid_predict userId movieId genres_list g) = Raise IndexError).
Proof.
  rewrite hybrid_predict_value. unfold cold_start.
  destruct genres_list as [|genre genres].
  { split; [split|split].
    - intros [s Hs]. discriminate.
    - intros [Hne _]. now contradiction Hne.
    - reflexivity.
    - intros ui mi Hne. now contradiction Hne. }
  destruct (user_indexer (model g) userId) as [ui|];
    [destruct (movie_indexer (model g) movieId) as [mi|];
     [destruct (is_nan (als_predict (collaborative_model g) ui mi)) eqn:Hnan|]|];
    (split; [split|split]).
  - intros [s Hs]. discriminate.
  - intros [_ H]. now contradiction H.
  - discriminate.
  - reflexivity.
  - intros _. split; discriminate.
  - eauto.
  - discriminate.
  - intros ui' mi' _ [= <-] [= <-] H. congruence.
  - intros [s Hs]. discriminate.
  - intros [_ H]. now contradiction H.
  - discriminate.
  - discriminate.
  - intros [s Hs]. discriminate.
  - intros [_ H]. now contradiction H.
  - discriminate.
  - discriminate.
Qed.

Lemma hybrid_predict_returns_or_raises_witness :
  value (hybrid_predict 1 1 [] Demo.demo) = Raise cannot_determine_type /\
  value (hybrid_predict 2 3 ["Comedy"%string] Demo.demo) = Raise IndexError.
Proof.
  split.
  - apply (proj1 (proj2 (hybrid_predict_returns_or_raises Demo.demo 1 1 []))).
    reflexivity.
  - apply (proj2 (proj2 (hybrid_predict_returns_or_raises Demo.demo 2 3
                           ["Comedy"%string])) 1%nat 1%nat);
      [discriminate|reflexivity..].
Defined.

(** X15. Every score [hybrid_predict] returns is the weighted sum of the
    two local scores, and its collaborative part is a number: a NaN
    collaborative prediction never reaches the sum. *)
Theorem returned_score_parts (g : Globals) (userId movieId : Z)
  (genres_list : list string) (s : float) :
  value (hybrid_predict userId movieId genres_list g) = Ok s ->
  exists cf cb,
    value (cf_score userId movieId genres_list g) = Ok cf /\
    value (cb_score userId movieId genres_list g) = Ok cb /\
    is_number cf /\
    s = (0.7 * cf + 0.3 * cb)%float.
Proof.
  rewrite hybrid_predict_bind.
  destruct (value (cf_score userId movieId genres_list g)) as [cf|e] eqn:Hcf;
    [|discriminate].
  destruct (value (cb_score userId movieId genres_list g)) as [cb|e] eqn:Hcb;
    [|discriminate].
  intros [= <-]. exists cf, cb. repeat split.
  eapply cf_score_is_number; eassumption.
Qed.

Lemma returned_score_parts_witness :
  exists cf cb,
    value (cf_score 1 50 ["Crime"%string] Demo.demo) = Ok cf /\
    value (cb_score 1 50 ["Crime"%string] Demo.demo) = Ok cb /\
    is_number cf /\
    (0.7 * 0.875 + 0.3 * 3)%float = (0.7 * cf + 0.3 * cb)%float.
Proof.
  apply (returned_score_parts Demo.demo 1 50 ["Crime"%string]
           (0.7 * 0.875 + 0.3 * 3)%float).
  vm_compute. reflexivity.
Defined.

(* ================================================================= *)
(** ** The column [genres_list] *)

Section Split.
Variable sep : Ascii.ascii.

Lemma split_nonempty (s : string) : split sep s <> [].
Proof.
  destruct s as [|c rest]; cbn; [discriminate|].
  destruct (Ascii.eqb c sep); [discriminate|].
  destruct (split sep rest); discriminate.
Qed.

Lemma concat_cons (x y : string) (l : list string) :
  String.concat (String sep EmptyString) (x :: y :: l) =
  (x ++ String sep (String.concat (String sep EmptyString) (y :: l)))%string.
Proof. reflexivity. Qed.

Lemma split_concat (s : string) :
  String.concat (String sep EmptyString) (split sep s) = s.
Proof.
  induction s as [|c rest IH]; cbn [split]; [reflexivity|].
  pose proof (split_nonempty rest) as Hne.
  destruct (split sep rest) as [|piece pieces]; [now contradiction Hne|].
  destruct (Ascii.eqb_spec c sep) as [->|_].
  - rewrite concat_cons, IH. reflexivity.
  - destruct pieces as [|piece' pieces].
    + cbn in IH |- *. now rewrite IH.
    + rewrite concat_cons in IH |- *. cbn [append]. now rewrite IH.
Qed.

Lemma split_pieces (s : string) :
  Forall (fun piece => occurrences sep piece = 0%nat) (split sep s) /\
  List.length (split sep s) = S (occurrences sep s).
Proof.
  induction s as [|c rest [IHfree IHlen]]; cbn [split occurrences].
  - split; [repeat constructor|reflexivity].
  - pose proof (split_nonempty rest) as Hne.
    destruct (Ascii.eqb c sep) eqn:Hc.
    + split; [now constructor|cbn; now rewrite IHlen].
    + destruct (split sep rest) as [|piece pieces]; [now contradiction Hne|].
      inversion IHfree as [|? ? Hpiece Hpieces]; subst.
      split; [|exact IHlen].
      constructor; [|assumption]. cbn. now rewrite Hc.
Qed.

Lemma split_app_sep (x rest : string) :
  occurrences sep x = 0%nat ->
  split sep (x ++ String sep rest) = x :: split sep rest.
Proof.
  induction x as [|c x IH]; cbn [append split occurrences].
  - intros _. now rewrite Ascii.eqb_refl.
  - destruct (Ascii.eqb c sep); [discriminate|].
    intros Hfree. now rewrite (IH Hfree).
Qed.

Lemma split_free (x : string) :
  occurrences sep x = 0%nat -> split sep x = [x].
Proof.
  induction x as [|c x IH]; cbn [split occurrences]; [reflexivity|].
  destruct (Ascii.eqb c sep); [discriminate|].
  intros Hfree. now rewrite (IH Hfree).
Qed.

Lemma split_of_concat (pieces : list string) :
  pieces <> [] ->
  Forall (fun piece => occurrences sep piece = 0%nat) pieces ->
  split sep (String.concat (String sep EmptyString) pieces) = pieces.
Proof.
  intros Hne Hfree. induction Hfree as [|x l Hx Hl IH]; [now contradiction Hne|].
  destruct l as [|y l]; cbn [String.concat]; [now apply split_free|].
  change (String sep EmptyString ++ ?t)%string with (String sep t).
  rewrite (split_app_sep _ _ Hx). f_equal. apply IH. discriminate.
Qed.
End Split.

(** X16. The column [genres_list] loses nothing of [genres]: joining its
    pieces with [|] gives the string back; it has one piece more than
    [genres] has [|], so it is never empty, and no piece contains [|]. *)
Theorem genres_list_round_trip (genres : string) :
  String.concat (String pipe EmptyString) (split pipe genres) = genres /\
  List.length (split pipe genres) = S (occurrences pipe genres) /\
  Forall (fun piece => occurrences pipe piece = 0%nat) (split pipe genres).
Proof.
  split; [apply split_concat|].
  destruct (split_pieces pipe genres) as [Hfree Hlen]. now split.
Qed.

(** X17. A [genres] string made of genre names joined with [|] is split
    into those names, in order, when no name contains [|]. *)
Theorem genres_list_of_joined_names (names : list string) :
  names <> [] ->
  Forall (fun name => occurrences pipe name = 0%nat) names ->
  split pipe (String.concat (String pipe EmptyString) names) = names.
Proof. apply split_of_concat. Qed.

Lemma genres_list_of_joined_names_witness :
  split pipe "Adventure|Animation|Children|Comedy|Fantasy"
  = ["Adventure"; "Animation"; "Children"; "Comedy"; "Fantasy"]%string.
Proof.
  apply (genres_list_of_joined_names
           ["Adventure"; "Animation"; "Children"; "Comedy"; "Fantasy"]%string).
  - discriminate.
  - repeat constructor.
Defined.

(* ================================================================= *)
(** ** The joined rows *)

Lemma filter_none {A : Type} (p : A -> bool) (l : list A) :
  (forall a, In a l -> p a = false) -> filter p l = [].
Proof.
  induction l as [|a l IH]; cbn; [reflexivity|].
  intros H. rewrite (H a (or_introl eq_refl)). apply IH.
  intros a' Ha'. apply H. now right.
Qed.

Section Join.
Variable movies_df : list Movie.

Lemma join_rating_nonempty (r : Rating) : join_rating movies_df r <> [].
Proof.
  unfold join_rating. destruct (movies_of r movies_df); discriminate.
Qed.

Lemma join_rating_rating (r : Rating) (j : JoinedRow) :
  In j (join_rating movies_df r) -> joined_rating j = r.
Proof.
  unfold join_rating. destruct (movies_of r movies_df) as [|m ms].
  - intros [<-|[]]. reflexivity.
  - intros Hin. apply in_map_iff in Hin as (m' & <- & _). reflexivity.
Qed.

Lemma join_rating_row (r : Rating) (j : JoinedRow) :
  In j (join_rating movies_df r) ->
  (forall m, In m movies_df -> movie_movieId m <> rating_movieId r) /\
  joined_title j = None /\ joined_genres j = None
  \/
  exists m, In m movies_df /\ movie_movieId m = rating_movieId r /\
            joined_title j = movie_title m /\
            joined_genres j = movie_genres m.
Proof.
  unfold join_rating. destruct (movies_of r movies_df) as [|m ms] eqn:Hms.
  - intros [<-|[]]. left. split; [|split; reflexivity].
    intros m Hin Heq.
    assert (Hm : In m (movies_of r movies_df)).
    { apply filter_In. split; [exact Hin|]. now apply Z.eqb_eq. }
    rewrite Hms in Hm. destruct Hm.
  - intros Hin. apply in_map_iff in Hin as (m' & <- & Hm').
    rewrite <- Hms in Hm'. apply filter_In in Hm' as [Hin Heq].
    right. exists m'. apply Z.eqb_eq in Heq. auto.
Qed.

Lemma movies_of_unique (r : Rating) :
  NoDup (map movie_movieId movies_df) ->
  (List.length (movies_of r movies_df) <= 1)%nat.
Proof.
  unfold movies_of. induction movies_df as [|m ms IH]; cbn; [lia|].
  intros Hnd. inversion Hnd as [|? ? Hnotin Hnd']; subst.
  destruct (Z.eqb_spec (movie_movieId m) (rating_movieId r)) as [Heq|_];
    [|now apply IH].
  cbn. replace (filter _ ms) with (@nil Movie); [cbn; lia|].
  symmetry. apply filter_none. intros m' Hin.
  apply Z.eqb_neq. intros Heq'. apply Hnotin. rewrite Heq, <- Heq'.
  now apply in_map.
Qed.

Lemma join_rating_unique (r : Rating) :
  NoDup (map movie_movieId movies_df) ->
  map joined_rating (join_rating movies_df r) = [r].
Proof.
  intros Hnd. pose proof (movies_of_unique r Hnd) as Hlen.
  unfold join_rating. destruct (movies_of r movies_df) as [|m [|m' ms]];
    cbn in *; [reflexivity|reflexivity|lia].
Qed.

Lemma left_join_unique (ratings_df : list Rating) :
  NoDup (map movie_movieId movies_df) ->
  map joined_rating (left_join ratings_df movies_df) = ratings_df.
Proof.
  intros Hnd. unfold left_join.
  induction ratings_df as [|r rs IH]; cbn; [reflexivity|].
  now rewrite map_app, IH, (join_rating_unique r Hnd).
Qed.

Lemma left_join_length (ratings_df : list Rating) :
  (List.length ratings_df <= List.length (left_join ratings_df movies_df))%nat.
Proof.
  unfold left_join. induction ratings_df as [|r rs IH]; cbn; [lia|].
  rewrite length_app. pose proof (join_rating_nonempty r).
  destruct (join_rating movies_df r); [congruence|cbn; lia].
Qed.
End Join.

(** X18. The left join keeps every rating and adds none: the ratings of
    the rows of [model_df] are those of [ratings_df], and [model_df] has at
    least as many rows as [ratings_df]. *)
Theorem model_df_keeps_every_rating (ratings_df : list Rating)
  (movies_df : list Movie) :
  (forall r,
     In r ratings_df <->
     In r (map (fun row => joined_rating (fst row)) (model_df ratings_df movies_df))) /\
  (List.length ratings_df <= List.length (model_df ratings_df movies_df))%nat.
Proof.
  unfold model_df. split.
  - intros r. rewrite map_map. cbn [fst]. unfold left_join. split.
    + intros Hin. apply in_map_iff.
      pose proof (join_rating_nonempty movies_df r) as Hne.
      destruct (join_rating movies_df r) as [|j js] eqn:Hj; [congruence|].
      exists j. split.
      * apply (join_rating_rating movies_df). rewrite Hj. now left.
      * apply in_flat_map. exists r. split; [exact Hin|]. rewrite Hj. now left.
    + intros Hin. apply in_map_iff in Hin as (j & <- & Hj).
      apply in_flat_map in Hj as (r' & Hr' & Hj).
      now rewrite (join_rating_rating movies_df _ _ Hj).
  - rewrite length_map. apply left_join_length.
Qed.

(** X19. When no two rows of the catalog have the same movieId, [model_df]
    has exactly one row per rating. *)
Theorem model_df_one_row_per_rating (ratings_df : list Rating)
  (movies_df : list Movie) :
  NoDup (map movie_movieId movies_df) ->
  List.length (model_df ratings_df movies_df) = List.length ratings_df /\
  Permutation
    (map (fun row => joined_rating (fst row)) (model_df ratings_df movies_df))
    ratings_df.
Proof.
  intros Hnd. unfold model_df.
  pose proof (left_join_unique movies_df ratings_df Hnd) as Heq.
  split.
  - rewrite length_map. apply (f_equal (@List.length Rating)) in Heq.
    now rewrite length_map in Heq.
  - rewrite map_map. cbn [fst]. rewrite <- Heq at 2. apply Permutation_refl.
Qed.

(** X20. A row of [model_df] either belongs to a rating whose movieId is
    not in the catalog, and then its title, genres and genres_list are
    null, or carries the title and genres of a catalog row with the
    rating's movieId, and the split of those genres as genres_list. *)
Theorem model_df_row (ratings_df : list Rating) (movies_df : list Movie)
  (j : JoinedRow) (genres_list : option (list string)) :
  In (j, genres_list) (model_df ratings_df movies_df) ->
  In (joined_rating j) ratings_df /\
  ((forall m, In m movies_df ->
              movie_movieId m <> rating_movieId (joined_rating j)) /\
   joined_title j = None /\ joined_genres j = None /\ genres_list = None
   \/
   exists m, In m movies_df /\
             movie_movieId m = rating_movieId (joined_rating j) /\
             joined_title j = movie_title m /\
             joined_genres j = movie_genres m /\
             genres_list = option_map (split pipe) (movie_genres m)).
Proof.
  unfold model_df. intros Hin.
  apply in_map_iff in Hin as (j' & [= -> <-] & Hj).
  apply in_flat_map in Hj as (r & Hr & Hj).
  pose proof (join_rating_rating movies_df _ _ Hj) as Hrat. rewrite Hrat.
  split; [exact Hr|].
  destruct (join_rating_row movies_df _ _ Hj) as [(Hno & Ht & Hg)|(m & Hm & Hid & Ht & Hg)].
  - left. rewrite Hg. auto.
  - right. exists m. rewrite Hg. auto.
Qed.

Lemma model_df_one_row_per_rating_witness :
  List.length (model_df demo_ratings demo_movies) = List.length demo_ratings /\
  Permutation
    (map (fun row => joined_rating (fst row)) (model_df demo_ratings demo_movies))
    demo_ratings.
Proof.
  apply (model_df_one_row_per_rating demo_ratings demo_movies).
  repeat constructor; cbn; intuition discriminate.
Defined.

Lemma model_df_row_witness :
  let r := {| rating_userId := 2; rating_movieId := 999; rating_value := 5.0;
              rating_timestamp := 964983815 |} in
  let j := {| joined_rating := r; joined_title := None; joined_genres := None |} in
  In (joined_rating j) demo_ratings /\
  ((forall m, In m demo_movies ->
              movie_movieId m <> rating_movieId (joined_rating j)) /\
   joined_title j = None /\ joined_genres j = None /\ @None (list string) = None
   \/
   exists m, In m demo_movies /\
             movie_movieId m = rating_movieId (joined_rating j) /\
             joined_title j = movie_title m /\
             joined_genres j = movie_genres m /\
             None = option_map (split pipe) (movie_genres m)).
Proof.
  cbn zeta.
  apply (model_df_row demo_ratings demo_movies
           {| joined_rating :=
                {| rating_userId := 2; rating_movieId := 999;
                   rating_value := 5.0; rating_timestamp := 964983815 |};
              joined_title := None; joined_genres := None |} None).
  right. right. left. reflexivity.
Defined.
